(** * teatree: the tree widget's navigation and scroll-clipped rendering

    A shallow embedding of the Go package [teatree] (the revision with
    [ScrollView], [ParentTree] and [Refresh]).  Go pointers [*TreeItem] are
    addresses into an item store, so that the aliasing between the tree's
    item list, the children lists, the parent back-references and the
    active-item reference is the one of the program.  Panics (nil
    dereference, index out of range, failed type assertion) are results of
    their own, and the loops that follow pointers run on fuel. *)

From Stdlib Require Import ZArith.
From stdpp Require Import gmap strings list.

(** ** Results of a call: normal return, panic, or fuel exhausted *)

Inductive Panic := NilDereference | IndexOutOfRange | BadTypeAssertion.

Inductive result (A : Type) : Type :=
  | Ok (a : A)
  | Panicked (e : Panic)
  | OutOfFuel.
Arguments Ok {A} a.
Arguments Panicked {A} e.
Arguments OutOfFuel {A}.

#[global] Instance result_ret : MRet result := fun A a => Ok a.
#[global] Instance result_bind : MBind result := fun A B k r =>
  match r with
  | Ok a => k a
  | Panicked e => Panicked e
  | OutOfFuel => OutOfFuel
  end.

(** ** Data model *)

(** [*TreeItem]: an address of the item store; an address the store does not
    hold behaves as the nil pointer. *)
Definition ptr := nat.

(** The identity of a hook function (a [func] taking the item) value stored in [OpenFunc] or
    [CloseFunc]. *)
Definition Hook := nat.

(** The interface value [ItemHolder]: nil, the tree, or an item. *)
Inductive ItemHolder := HNil | HTree | HItem (p : ptr).

(** [*Tree]: the store holds one tree, so the pointer is nil or that tree. *)
Inductive TreeRef := NilTree | TheTree.

#[global] Instance ItemHolder_eq_dec : EqDecision ItemHolder.
Proof. solve_decision. Defined.
#[global] Instance TreeRef_eq_dec : EqDecision TreeRef.
Proof. solve_decision. Defined.

(** [type TreeItem struct]; the mutex and the opaque [Data] play no part in
    navigation or rendering and are left out. *)
Record TreeItem := mkTreeItem {
  ParentTree : TreeRef;
  Parent : ItemHolder;
  Icon : string;
  Name : string;
  Children : list ptr;
  CanHaveChildren : bool;
  Open : bool;
  OpenFunc : option Hook;
  CloseFunc : option Hook;
  indent : Z
}.

(** [type Tree struct] together with the item store.  The symbols, the style
    and the key map are presentation data no operation below reads. *)
Record State := mkState {
  TopLine : Z;
  Width : Z;
  Height : Z;
  ActiveItem : option ptr;
  Items : list ptr;
  initialized : bool;
  heap : gmap ptr TreeItem
}.

(** A call of a caller-supplied hook, as observed by the host. *)
Inductive HookCall := OpenCall (h : Hook) (ti : ptr) | CloseCall (h : Hook) (ti : ptr).

#[global] Instance HookCall_eq_dec : EqDecision HookCall.
Proof. solve_decision. Defined.

(** Field updates. *)
Definition set_ActiveItem (a : option ptr) (st : State) : State :=
  mkState (TopLine st) (Width st) (Height st) a (Items st) (initialized st) (heap st).
Definition set_Items (l : list ptr) (st : State) : State :=
  mkState (TopLine st) (Width st) (Height st) (ActiveItem st) l (initialized st) (heap st).
Definition set_heap (h : gmap ptr TreeItem) (st : State) : State :=
  mkState (TopLine st) (Width st) (Height st) (ActiveItem st) (Items st) (initialized st) h.
Definition set_size (w h : Z) (st : State) : State :=
  mkState (TopLine st) w h (ActiveItem st) (Items st) true (heap st).

Definition with_Parent (h : ItemHolder) (t : TreeRef) (it : TreeItem) : TreeItem :=
  mkTreeItem t h (Icon it) (Name it) (Children it) (CanHaveChildren it) (Open it)
             (OpenFunc it) (CloseFunc it) (indent it).
Definition with_Children (l : list ptr) (it : TreeItem) : TreeItem :=
  mkTreeItem (ParentTree it) (Parent it) (Icon it) (Name it) l (CanHaveChildren it) (Open it)
             (OpenFunc it) (CloseFunc it) (indent it).
Definition with_CanHaveChildren (b : bool) (it : TreeItem) : TreeItem :=
  mkTreeItem (ParentTree it) (Parent it) (Icon it) (Name it) (Children it) b (Open it)
             (OpenFunc it) (CloseFunc it) (indent it).
Definition with_Open (b : bool) (it : TreeItem) : TreeItem :=
  mkTreeItem (ParentTree it) (Parent it) (Icon it) (Name it) (Children it) (CanHaveChildren it) b
             (OpenFunc it) (CloseFunc it) (indent it).
Definition with_indent (n : Z) (it : TreeItem) : TreeItem :=
  mkTreeItem (ParentTree it) (Parent it) (Icon it) (Name it) (Children it) (CanHaveChildren it)
             (Open it) (OpenFunc it) (CloseFunc it) n.

(** Reading through a pointer: [ti.f] panics on nil. *)
Definition deref (st : State) (p : ptr) : result TreeItem :=
  match heap st !! p with
  | Some it => Ok it
  | None => Panicked NilDereference
  end.

(** Writing through a pointer. *)
Definition store (p : ptr) (it : TreeItem) (st : State) : State :=
  set_heap (<[p := it]> (heap st)) st.

(** [ti.ParentTree.ActiveItem = q]: panics when [ti.ParentTree] is nil. *)
Definition activate_through (st : State) (ti q : ptr) : result State :=
  it ← deref st ti;
  match ParentTree it with
  | TheTree => Ok (set_ActiveItem (Some q) st)
  | NilTree => Panicked NilDereference
  end.

(** [h.GetItems()] on an interface value. *)
Definition GetItems (st : State) (h : ItemHolder) : result (list ptr) :=
  match h with
  | HNil => Panicked NilDereference
  | HTree => Ok (Items st)
  | HItem p => it ← deref st p; Ok (Children it)
  end.

(** [ti.Parent == ti.ParentTree]: an interface value equals a [*Tree] only
    when it holds that tree. *)
Definition holder_is_tree (h : ItemHolder) (t : TreeRef) : bool :=
  match h, t with
  | HTree, TheTree => true
  | _, _ => false
  end.

(** ** TreeItem.Refresh, OpenChildren, CloseChildren, ToggleChildren *)

Definition TreeItem_Refresh (ti : ptr) (st : State) : result State :=
  it ← deref st ti;
  Ok (store ti (with_Open false (with_Children [] it)) st).

Definition OpenChildren (ti : ptr) (st : State) : result State :=
  it ← deref st ti; Ok (store ti (with_Open true it) st).

Definition CloseChildren (ti : ptr) (st : State) : result State :=
  it ← deref st ti; Ok (store ti (with_Open false it) st).

(** The hook call is the last thing [ToggleChildren] does (and the last
    thing [Tree.ToggleChild] and the key handler do after it), so whatever
    the hook does to the store happens as further operations of the host
    after the flag is flipped; the model returns the call made. *)
Definition ToggleChildren (ti : ptr) (st : State) : result (State * list HookCall) :=
  it ← deref st ti;
  if CanHaveChildren it then
    let it' := with_Open (negb (Open it)) it in
    let st' := store ti it' st in
    if Open it' then
      match OpenFunc it' with
      | Some h => Ok (st', [OpenCall h ti])
      | None => Ok (st', [])
      end
    else
      match CloseFunc it' with
      | Some h => Ok (st', [CloseCall h ti])
      | None => Ok (st', [])
      end
  else Ok (st, []).

(** ** SelectPrevious *)

(** [for x, item := range l { if item == ti { ... return } }]: the index of
    the first occurrence. *)
Fixpoint index_of (ti : ptr) (l : list ptr) : option nat :=
  match l with
  | [] => None
  | item :: rest =>
      if decide (item = ti) then Some 0%nat else S <$> index_of ti rest
  end.

(** The inner [for] of [SelectPrevious]: descend through last children while
    the candidate can have children and is open; [Children[len-1]] panics on
    an empty list. *)
Fixpoint descend_last (fuel : nat) (st : State) (newItem : ptr) : result ptr :=
  match fuel with
  | O => OutOfFuel
  | S fuel' =>
      it ← deref st newItem;
      if CanHaveChildren it && Open it then
        match last (Children it) with
        | Some kid => descend_last fuel' st kid
        | None => Panicked IndexOutOfRange
        end
      else Ok newItem
  end.

Definition TreeItem_SelectPrevious (fuel : nat) (ti : ptr) (st : State) : result State :=
  it ← deref st ti;
  siblingItems ← GetItems st (Parent it);
  match index_of ti siblingItems with
  | None => Ok st
  | Some x =>
      match x with
      | S x' =>
          match siblingItems !! x' with
          | Some newItem =>
              target ← descend_last fuel st newItem;
              activate_through st ti target
          | None => Panicked IndexOutOfRange
          end
      | O =>
          match Parent it with
          | HItem par => activate_through st ti par
          | _ => Ok st
          end
      end
  end.

(** ** SelectNext *)

(** [for x, item := range parentItems { if item == ti { if x+1 <
    len(parentItems) { ... return } } }]. *)
Fixpoint scan_next (ti : ptr) (parentItems : list ptr) : option ptr :=
  match parentItems with
  | [] => None
  | item :: rest =>
      if decide (item = ti) then
        match rest with
        | nxt :: _ => Some nxt
        | [] => scan_next ti rest
        end
      else scan_next ti rest
  end.

Fixpoint SelectNext_loop (fuel : nat) (st : State) (ti : ptr) (descend : bool)
  : result State :=
  match fuel with
  | O => OutOfFuel
  | S fuel' =>
      it ← deref st ti;
      parentItems ← GetItems st (Parent it);
      if (0 <? length (Children it))%nat && Open it && descend then
        match Children it !! 0%nat with
        | Some first => activate_through st ti first
        | None => Panicked IndexOutOfRange
        end
      else
        match scan_next ti parentItems with
        | Some nxt => activate_through st ti nxt
        | None =>
            if holder_is_tree (Parent it) (ParentTree it) then Ok st
            else
              match Parent it with
              | HItem par => SelectNext_loop fuel' st par false
              | _ => Panicked BadTypeAssertion
              end
        end
  end.

Definition TreeItem_SelectNext (fuel : nat) (ti : ptr) (st : State) : result State :=
  SelectNext_loop fuel st ti true.

Definition Tree_SelectPrevious (fuel : nat) (st : State) : result State :=
  match ActiveItem st with
  | Some active => TreeItem_SelectPrevious fuel active st
  | None => Ok st
  end.

Definition Tree_SelectNext (fuel : nat) (st : State) : result State :=
  match ActiveItem st with
  | Some active => TreeItem_SelectNext fuel active st
  | None => Ok st
  end.

Definition ToggleChild (st : State) : result (State * list HookCall) :=
  match ActiveItem st with
  | Some active => ToggleChildren active st
  | None => Ok (st, [])
  end.

(** ** Construction: NewItem, AddChildren, New, Refresh *)

(** [&TreeItem{...}]: a fresh address; [Parent], [ParentTree] and [indent]
    take their zero values. *)
Definition NewItem (name icon : string) (canHaveChildren : bool) (children : list ptr)
    (openFunc closeFunc : option Hook) (st : State) : ptr * State :=
  let p := fresh (dom (heap st)) in
  (p, store p (mkTreeItem NilTree HNil icon name children canHaveChildren false
                 openFunc closeFunc 0) st).

(** [for _, child := range children { child.Parent = ti; child.ParentTree =
    ti.ParentTree }], reading [ti.ParentTree] at every turn. *)
Fixpoint adopt_into_item (ti : ptr) (children : list ptr) (st : State) : result State :=
  match children with
  | [] => Ok st
  | child :: rest =>
      c ← deref st child;
      let st1 := store child (with_Parent (HItem ti) (ParentTree c) c) st in
      it ← deref st1 ti;
      c1 ← deref st1 child;
      adopt_into_item ti rest (store child (with_Parent (Parent c1) (ParentTree it) c1) st1)
  end.

Definition TreeItem_AddChildren (ti : ptr) (children : list ptr) (st : State) : result State :=
  it ← deref st ti;
  let st1 := store ti (with_Children (Children it ++ children) it) st in
  it1 ← deref st1 ti;
  let st2 := store ti (with_CanHaveChildren true it1) st1 in
  adopt_into_item ti children st2.

(** [for _, item := range i { item.Parent = t; item.ParentTree = t }]. *)
Fixpoint adopt_into_tree (i : list ptr) (st : State) : result State :=
  match i with
  | [] => Ok st
  | item :: rest =>
      c ← deref st item;
      adopt_into_tree rest (store item (with_Parent HTree TheTree c) st)
  end.

Definition Tree_AddChildren (i : list ptr) (st : State) : result State :=
  match i with
  | [] => Ok st
  | _ :: _ =>
      let st1 := set_Items (Items st ++ i) st in
      let st2 :=
        match ActiveItem st1 with
        | None => set_ActiveItem (Items st1 !! 0%nat) st1
        | Some _ => st1
        end in
      adopt_into_tree i st2
  end.

(** [New()]: the zero tree with [initialized] set, and no item allocated. *)
Definition New : State := mkState 0 0 0 None [] true ∅.

Definition Tree_Refresh (st : State) : State := set_Items [] st.

(** ** Update: the key and resize handler *)

Inductive Msg := WindowSizeMsg (w h : Z) | KeyMsg (key : string) | OtherMsg.

(** After the [switch], [t.ActiveItem.Update(msg)] returns the item itself,
    so the final assignment to [t.ActiveItem] changes nothing. *)
Definition Tree_Update (fuel : nat) (msg : Msg) (st : State)
  : result (State * list HookCall) :=
  match msg with
  | WindowSizeMsg w h => Ok (set_size w h st, [])
  | KeyMsg key =>
      if decide (key = "up" ∨ key = "k") then
        st' ← Tree_SelectPrevious fuel st; Ok (st', [])
      else if decide (key = "down" ∨ key = "j") then
        st' ← Tree_SelectNext fuel st; Ok (st', [])
      else if decide (key = " " ∨ key = ".") then ToggleChild st
      else Ok (st, [])
  | OtherMsg => Ok (st, [])
  end.

(** ** Rendering: ScrollView and Tree.View *)

(** The lipgloss styles and [JoinVertical] are the presentation
    collaborator: opaque functions on strings. *)
Class Presentation := {
  focusedStyle : string → string;
  unfocusedStyle : string → string;
  JoinVertical : list string → string
}.

Definition NoChevron : string := " ".
Definition ChevronRight : string := "󰅂".
Definition ChevronDown : string := "󰅀".

(** [for x := 0; x < n; x++ { s += "  " }]. *)
Fixpoint indentation (n : nat) : string :=
  match n with
  | O => ""
  | S n' => indentation n' +:+ "  "
  end.

Definition chevron (it : TreeItem) : string :=
  if CanHaveChildren it then (if Open it then ChevronDown else ChevronRight)
  else NoChevron.

(** The text of an item's row before styling. *)
Definition prefix (it : TreeItem) : string :=
  indentation (Z.to_nat (indent it)) +:+ chevron it.
Definition label (it : TreeItem) : string :=
  prefix it +:+ Icon it +:+ " " +:+ Name it.

Section Render.
Context `{Presentation}.

(** The [for] over the children inside [ScrollView]: set the child's
    [indent], render it, append its text, and [break] once the counter has
    reached [bottomline].  [scroll] is the recursive call. *)
Definition kids_loop (scroll : ptr → Z → State → result (State * Z * string))
    (ti : ptr) (bottomline : Z)
  : list ptr → Z → list string → State → result (State * Z * list string) :=
  fix go (items : list ptr) (topline : Z) (kids : list string) (st : State) :=
    match items with
    | [] => Ok (st, topline, kids)
    | item :: rest =>
        c ← deref st item;
        me ← deref st ti;
        let st1 := store item (with_indent (indent me + 1) c) st in
        '(st2, topline, tmps) ← scroll item topline st1;
        let kids := kids ++ [tmps] in
        if (bottomline <=? topline)%Z then Ok (st2, topline, kids)
        else go rest topline kids st2
    end.

(** [ScrollView] returns the counter and the text; the store is threaded
    because the walk writes [item.indent].  The logging calls are left out. *)
Fixpoint ScrollView (fuel : nat) (ti : ptr) (topline bottomline : Z) (st : State)
  : result (State * Z * string) :=
  match fuel with
  | O => OutOfFuel
  | S fuel' =>
      it ← deref st ti;
      match ParentTree it with
      | NilTree => Panicked NilDereference
      | TheTree =>
          let ai := ActiveItem st in
          let render := negb (topline <? 0)%Z in
          let s :=
            if render then
              (if decide (ai = Some ti) then focusedStyle (label it)
               else unfocusedStyle (label it))
            else prefix it in
          let topline := (topline + 1)%Z in
          if (bottomline <? topline)%Z then Ok (st, topline, "")
          else if (0 <? length (Children it))%nat && Open it then
            '(st', topline, kids) ←
              kids_loop (fun item topline st => ScrollView fuel' item topline bottomline st)
                        ti bottomline (Children it) topline [] st;
            Ok (st', topline, JoinVertical (s :: kids))
          else Ok (st, topline, s)
      end
  end.

(** The [for] of [Tree.View]: every top-level item is visited (there is no
    [break] here); an empty text is not appended to [views]. *)
Fixpoint View_loop (fuel : nat) (items : list ptr) (topline : Z) (views : list string)
    (st : State) : result (State * Z * list string) :=
  match items with
  | [] => Ok (st, topline, views)
  | item :: rest =>
      c ← deref st item;
      let st1 := store item (with_indent 0 c) st in
      '(st2, topline, v) ← ScrollView fuel item topline (Height st1) st1;
      View_loop fuel rest topline (if decide (v = "") then views else views ++ [v]) st2
  end.

(** The rows [Tree.View] joins, with the final counter. *)
Definition View_rows (fuel : nat) (st : State) : result (State * Z * list string) :=
  View_loop fuel (Items st) (TopLine st) [] st.

Definition Tree_View (fuel : nat) (st : State) : result (State * string) :=
  if initialized st then
    '(st', _, views) ← View_rows fuel st;
    Ok (st', JoinVertical views)
  else Ok (st, "").

End Render.

(** ** GetPath and the unclipped View *)

(** [Tree.GetPath] returns the empty path; [TreeItem.GetPath] asks its
    holder, when the interface value is not nil, and appends its own name. *)
Fixpoint TreeItem_GetPath (fuel : nat) (ti : ptr) (st : State) : result (list string) :=
  match fuel with
  | O => OutOfFuel
  | S fuel' =>
      it ← deref st ti;
      path ← match Parent it with
             | HNil => Ok []
             | HTree => Ok []
             | HItem p => TreeItem_GetPath fuel' p st
             end;
      Ok (path ++ [Name it])
  end.

Section PlainView.
Context `{Presentation}.

(** The [for] over the children inside [TreeItem.View]. *)
Definition view_kids (view : ptr → State → result (State * string)) (ti : ptr)
  : list ptr → list string → State → result (State * list string) :=
  fix go (items : list ptr) (kids : list string) (st : State) :=
    match items with
    | [] => Ok (st, kids)
    | item :: rest =>
        c ← deref st item;
        me ← deref st ti;
        let st1 := store item (with_indent (indent me + 1) c) st in
        '(st2, inners) ← view item st1;
        go rest (kids ++ [inners]) st2
    end.

(** [TreeItem.View]: the row of the item, always styled, above the views of
    its children when it is open and has some. *)
Fixpoint TreeItem_View (fuel : nat) (ti : ptr) (st : State) : result (State * string) :=
  match fuel with
  | O => OutOfFuel
  | S fuel' =>
      it ← deref st ti;
      match ParentTree it with
      | NilTree => Panicked NilDereference
      | TheTree =>
          let s :=
            if decide (ActiveItem st = Some ti) then focusedStyle (label it)
            else unfocusedStyle (label it) in
          if (0 <? length (Children it))%nat && Open it then
            '(st', kids) ←
              view_kids (fun item st => TreeItem_View fuel' item st) ti (Children it) [] st;
            Ok (st', JoinVertical (s :: kids))
          else Ok (st, s)
      end
  end.

End PlainView.

(** ** The operations of the package as a script language *)

Inductive Op :=
  | OpNewItem (name icon : string) (canHaveChildren : bool) (children : list ptr)
      (openFunc closeFunc : option Hook)
  | OpTreeAddChildren (i : list ptr)
  | OpItemAddChildren (ti : ptr) (children : list ptr)
  | OpUpdate (msg : Msg)
  | OpTreeSelectPrevious
  | OpTreeSelectNext
  | OpToggleChild
  | OpItemSelectPrevious (ti : ptr)
  | OpItemSelectNext (ti : ptr)
  | OpToggleChildren (ti : ptr)
  | OpOpenChildren (ti : ptr)
  | OpCloseChildren (ti : ptr)
  | OpTreeRefresh
  | OpItemRefresh (ti : ptr)
  | OpView.

Definition is_refresh (op : Op) : bool :=
  match op with
  | OpTreeRefresh | OpItemRefresh _ => true
  | _ => false
  end.

Definition quiet (r : result State) : result (State * list HookCall) :=
  st ← r; Ok (st, []).

Section Scripts.
Context `{Presentation}.

Definition exec (fuel : nat) (op : Op) (st : State) : result (State * list HookCall) :=
  match op with
  | OpNewItem name icon can children openFunc closeFunc =>
      Ok ((NewItem name icon can children openFunc closeFunc st).2, [])
  | OpTreeAddChildren i => quiet (Tree_AddChildren i st)
  | OpItemAddChildren ti children => quiet (TreeItem_AddChildren ti children st)
  | OpUpdate msg => Tree_Update fuel msg st
  | OpTreeSelectPrevious => quiet (Tree_SelectPrevious fuel st)
  | OpTreeSelectNext => quiet (Tree_SelectNext fuel st)
  | OpToggleChild => ToggleChild st
  | OpItemSelectPrevious ti => quiet (TreeItem_SelectPrevious fuel ti st)
  | OpItemSelectNext ti => quiet (TreeItem_SelectNext fuel ti st)
  | OpToggleChildren ti => ToggleChildren ti st
  | OpOpenChildren ti => quiet (OpenChildren ti st)
  | OpCloseChildren ti => quiet (CloseChildren ti st)
  | OpTreeRefresh => Ok (Tree_Refresh st, [])
  | OpItemRefresh ti => quiet (TreeItem_Refresh ti st)
  | OpView => '(st', _) ← Tree_View fuel st; Ok (st', [])
  end.

(** Run a script from a state, collecting the hook calls in order. *)
Fixpoint run (fuel : nat) (ops : list Op) (st : State) : result (State * list HookCall) :=
  match ops with
  | [] => Ok (st, [])
  | op :: rest =>
      '(st1, calls1) ← exec fuel op st;
      '(st2, calls2) ← run fuel rest st1;
      Ok (st2, calls1 ++ calls2)
  end.

End Scripts.

(** A plain-text presentation, used to evaluate the code on examples. *)
Definition plain : Presentation :=
  {| focusedStyle := fun s => "|" +:+ s +:+ "|";
     unfocusedStyle := fun s => " " +:+ s +:+ " ";
     JoinVertical := fun l => String.concat (String (Ascii.ascii_of_nat 10) "") l |}.

(** ** Vocabulary of the statements about rendering *)

Section RenderingVocabulary.
Context `{Presentation}.

(** The styled row of an item at depth 0, as [Tree.View] shows it. *)
Definition row (st : State) (p : ptr) : string :=
  match heap st !! p with
  | Some it =>
      if decide (ActiveItem st = Some p) then focusedStyle (label (with_indent 0 it))
      else unfocusedStyle (label (with_indent 0 it))
  | None => ""
  end.

(** What is left in [s] for a row above the window: indentation and marker. *)
Definition bare_row (st : State) (p : ptr) : string :=
  match heap st !! p with
  | Some it => prefix (with_indent 0 it)
  | None => ""
  end.

(** A top-level item without children that belongs to the tree. *)
Definition flat_item (st : State) (p : ptr) : Prop :=
  ∃ it, heap st !! p = Some it ∧ Children it = [] ∧ ParentTree it = TheTree.

(** The text a flat item yields when the counter stands at [t]. *)
Definition flat_text (st : State) (t : Z) (p : ptr) : string :=
  if (Height st <? t + 1)%Z then ""
  else if (t <? 0)%Z then bare_row st p else row st p.

Fixpoint flat_rows (st : State) (l : list ptr) (t : Z) : list string :=
  match l with
  | [] => []
  | p :: rest =>
      (if decide (flat_text st t p = "") then [] else [flat_text st t p])
      ++ flat_rows st rest (t + 1)
  end.

(** Two states that differ at most in the [indent] fields. *)
Definition same_but_indent (st st' : State) : Prop :=
  TopLine st = TopLine st' ∧ Width st = Width st' ∧ Height st = Height st' ∧
  ActiveItem st = ActiveItem st' ∧ Items st = Items st' ∧
  initialized st = initialized st' ∧
  ∀ p, with_indent 0 <$> (heap st !! p) = with_indent 0 <$> (heap st' !! p).

End RenderingVocabulary.

(** ** Concrete scenarios *)

(** The state a script leaves when run from [New()] under the plain
    presentation. *)
Definition after (fuel : nat) (ops : list Op) : State :=
  match run (H := plain) fuel ops New with
  | Ok (st, _) => st
  | _ => New
  end.

(** The host sets the exported field [TopLine] directly to scroll. *)
Definition set_TopLine (t : Z) (st : State) : State :=
  mkState t (Width st) (Height st) (ActiveItem st) (Items st) (initialized st) (heap st).

(** Ten leaves N0..N9 added to the tree in one call. *)
Definition flat10 : list Op :=
  [OpNewItem "N0" "-" false [] None None; OpNewItem "N1" "-" false [] None None;
   OpNewItem "N2" "-" false [] None None; OpNewItem "N3" "-" false [] None None;
   OpNewItem "N4" "-" false [] None None; OpNewItem "N5" "-" false [] None None;
   OpNewItem "N6" "-" false [] None None; OpNewItem "N7" "-" false [] None None;
   OpNewItem "N8" "-" false [] None None; OpNewItem "N9" "-" false [] None None;
   OpTreeAddChildren [0; 1; 2; 3; 4; 5; 6; 7; 8; 9]%nat].

(** Height 3, not scrolled. *)
Definition flat10_height3 : State :=
  after 1 (flat10 ++ [OpUpdate (WindowSizeMsg 80 3)]).

(** Ten closed folders N0..N9 without children, height 5, scrolled so that
    the first row is counted at -2. *)
Definition folders10 : list Op :=
  [OpNewItem "N0" "d" true [] None None; OpNewItem "N1" "d" true [] None None;
   OpNewItem "N2" "d" true [] None None; OpNewItem "N3" "d" true [] None None;
   OpNewItem "N4" "d" true [] None None; OpNewItem "N5" "d" true [] None None;
   OpNewItem "N6" "d" true [] None None; OpNewItem "N7" "d" true [] None None;
   OpNewItem "N8" "d" true [] None None; OpNewItem "N9" "d" true [] None None;
   OpTreeAddChildren [0; 1; 2; 3; 4; 5; 6; 7; 8; 9]%nat;
   OpUpdate (WindowSizeMsg 80 5)].

Definition folders10_scrolled : State := set_TopLine (-2) (after 1 folders10).

(** ** Vocabulary of the statements about navigation *)

(** The ordered child list of a holder, when the holder is not nil. *)
Definition items_of (st : State) (h : ItemHolder) : option (list ptr) :=
  match h with
  | HNil => None
  | HTree => Some (Items st)
  | HItem p => Children <$> heap st !! p
  end.

(** The sibling after (before) the position of [p] in [l]. *)
Definition next_sibling (l : list ptr) (p : ptr) : option ptr :=
  i ← index_of p l; l !! S i.

Definition previous_sibling (l : list ptr) (p : ptr) : option ptr :=
  i ← index_of p l;
  match i with
  | O => None
  | S j => l !! j
  end.

(** A node is visibly expanded when it is open and has a child. *)
Definition expanded (it : TreeItem) : bool :=
  Open it && bool_decide (Children it ≠ []).

(** A node whose parent chain ends in the tree, each link being a node
    listed among the children of its parent. *)
Inductive attached (st : State) : ptr → Prop :=
  | attached_top p it :
      heap st !! p = Some it → Parent it = HTree → ParentTree it = TheTree →
      p ∈ Items st → attached st p
  | attached_child p it a ita :
      heap st !! p = Some it → Parent it = HItem a → ParentTree it = TheTree →
      heap st !! a = Some ita → p ∈ Children ita →
      attached st a → attached st p.

(** Nodes reached from the top-level list through children lists. *)
Inductive reachable (st : State) : ptr → Prop :=
  | reachable_top p : p ∈ Items st → reachable st p
  | reachable_child a ita p :
      reachable st a → heap st !! a = Some ita → p ∈ Children ita → reachable st p.

(** Structural validity: every listed node exists, points back to the
    holder that lists it and to the tree, and no list repeats a node. *)
Definition listed_under (st : State) (h : ItemHolder) (l : list ptr) : Prop :=
  NoDup l ∧
  ∀ p, p ∈ l → ∃ it, heap st !! p = Some it ∧ Parent it = h ∧ ParentTree it = TheTree.

Definition valid (st : State) : Prop :=
  listed_under st HTree (Items st) ∧
  ∀ a ita, reachable st a → heap st !! a = Some ita →
           listed_under st (HItem a) (Children ita) ∧
           (Children ita ≠ [] → CanHaveChildren ita = true).

(** Steps 2 to 4 of select-next: the next sibling of the node, else of its
    nearest ancestor that has one, else nothing once the tree is reached. *)
Inductive next_of_ancestor (st : State) : ptr → option ptr → Prop :=
  | next_here p it l q :
      heap st !! p = Some it → items_of st (Parent it) = Some l →
      next_sibling l p = Some q → next_of_ancestor st p (Some q)
  | next_none p it :
      heap st !! p = Some it → Parent it = HTree →
      next_sibling (Items st) p = None → next_of_ancestor st p None
  | next_climb p it a l r :
      heap st !! p = Some it → Parent it = HItem a →
      items_of st (Parent it) = Some l → next_sibling l p = None →
      next_of_ancestor st a r → next_of_ancestor st p r.

(** The node select-next moves to from [p], if any. *)
Definition select_next_target (st : State) (p : ptr) (r : option ptr) : Prop :=
  ∃ it, heap st !! p = Some it ∧
    if expanded it then r = head (Children it) else next_of_ancestor st p r.

(** Step 2 of select-previous: from a candidate, the deepest last child
    through nodes that can have children and are open. *)
Inductive deepest_last (st : State) : ptr → ptr → Prop :=
  | deepest_stop p it :
      heap st !! p = Some it → CanHaveChildren it && Open it = false →
      deepest_last st p p
  | deepest_step p it kid r :
      heap st !! p = Some it → CanHaveChildren it && Open it = true →
      last (Children it) = Some kid → deepest_last st kid r →
      deepest_last st p r.

(** The last visible row under a list of siblings. *)
Inductive last_row (st : State) : list ptr → ptr → Prop :=
  | last_row_here l p it :
      last l = Some p → heap st !! p = Some it → expanded it = false →
      last_row st l p
  | last_row_below l q it p :
      last l = Some q → heap st !! q = Some it → expanded it = true →
      last_row st (Children it) p → last_row st l p.

(** A visible row: a top-level node, or a child of a visible open node. *)
Inductive visible (st : State) : ptr → Prop :=
  | visible_top p : p ∈ Items st → visible st p
  | visible_child a ita p :
      visible st a → heap st !! a = Some ita → Open ita = true →
      p ∈ Children ita → visible st p.

(** No node of the tree is an open folder without children. *)
Definition no_open_empty (st : State) : Prop :=
  ∀ p it, reachable st p → heap st !! p = Some it →
          CanHaveChildren it && Open it = true → Children it ≠ [].

(** The node select-previous moves to from [p], if any: the deepest last
    open descendant of the previous sibling, else the parent when it is a
    node. *)
Definition select_previous_target (st : State) (p : ptr) (r : option ptr) : Prop :=
  ∃ it l, heap st !! p = Some it ∧ items_of st (Parent it) = Some l ∧
    match index_of p l with
    | None => r = None
    | Some O => r = match Parent it with HItem a => Some a | _ => None end
    | Some (S x) => ∃ q m, l !! x = Some q ∧ deepest_last st q m ∧ r = Some m
    end.

(** The descent of select-previous from [p] runs into an open folder
    without children. *)
Inductive descent_breaks (st : State) : ptr → Prop :=
  | breaks_here p it :
      heap st !! p = Some it → CanHaveChildren it && Open it = true →
      Children it = [] → descent_breaks st p
  | breaks_below p it kid :
      heap st !! p = Some it → CanHaveChildren it && Open it = true →
      last (Children it) = Some kid → descent_breaks st kid →
      descent_breaks st p.

(** The parent chain of an attached node, top-level ancestor first. *)
Inductive ancestry (st : State) : ptr → list ptr → Prop :=
  | ancestry_top p it :
      heap st !! p = Some it → Parent it = HTree → ancestry st p [p]
  | ancestry_child p it a chain :
      heap st !! p = Some it → Parent it = HItem a →
      ancestry st a chain → ancestry st p (chain ++ [p]).

Definition name_of (st : State) (p : ptr) : string :=
  match heap st !! p with
  | Some it => Name it
  | None => ""
  end.

(** The state after the active item moved (or not). *)
Definition moved_to (r : option ptr) (st : State) : State :=
  match r with
  | Some q => set_ActiveItem (Some q) st
  | None => st
  end.

(** Climbing out of holder [h] ends at the tree without a move. *)
Definition climb_noop (st : State) (h : ItemHolder) : Prop :=
  match h with
  | HNil => False
  | HTree => True
  | HItem a =>
      ∃ fuel0, ∀ fuel, (fuel0 ≤ fuel)%nat → SelectNext_loop fuel st a false = Ok st
  end.

(** A checker for validity, for stores in which every item is in the tree. *)
Definition listed_underb (st : State) (h : ItemHolder) (l : list ptr) : bool :=
  bool_decide (NoDup l) &&
  forallb (fun p =>
             match heap st !! p with
             | Some it => bool_decide (Parent it = h) && bool_decide (ParentTree it = TheTree)
             | None => false
             end) l.

Definition validb (st : State) : bool :=
  listed_underb st HTree (Items st) &&
  bool_decide (map_Forall (fun a ita =>
                 listed_underb st (HItem a) (Children ita)
                 && (bool_decide (Children ita = []) || CanHaveChildren ita) = true)
               (heap st)).

(** The tree of the comment above [SelectPrevious], without its Item 3:
    Item 1 holds Sub 1, which holds SubSub 1; Item 2 holds AA and BB; the
    three holders are open.  Addresses are 0 to 5 in this order: Item 1,
    Sub 1, SubSub 1, Item 2, AA, BB. *)
Definition nested : list Op :=
  [OpNewItem "Item 1" "d" true [] None None;
   OpNewItem "Sub 1" "d" true [] None None;
   OpNewItem "SubSub 1" "-" false [] None None;
   OpNewItem "Item 2" "d" true [] None None;
   OpNewItem "AA" "-" false [] None None;
   OpNewItem "BB" "-" false [] None None;
   OpTreeAddChildren [0; 3]%nat;
   OpItemAddChildren 0%nat [1%nat];
   OpItemAddChildren 1%nat [2%nat];
   OpItemAddChildren 3%nat [4; 5]%nat;
   OpOpenChildren 0%nat; OpOpenChildren 1%nat; OpOpenChildren 3%nat].

(** The same tree with the active item on Item 1, on SubSub 1, on BB. *)
Definition nested_at_item1 : State := after 3 nested.
Definition nested_at_subsub1 : State :=
  after 3 (nested ++ [OpTreeSelectNext; OpTreeSelectNext]).
Definition nested_at_bb : State :=
  after 3 (nested ++ [OpItemSelectNext 4%nat]).

(** A folder A that is opened while it has no children (an empty
    directory, or no [OpenFunc]), followed by a leaf B.  Addresses: A is 0,
    B is 1.  The keys are those of [Tree.Update]: space toggles, "down"
    moves to B. *)
Definition empty_folder : list Op :=
  [OpNewItem "A" "d" true [] None None;
   OpNewItem "B" "-" false [] None None;
   OpTreeAddChildren [0; 1]%nat;
   OpUpdate (KeyMsg " ")].

Definition empty_folder_at_a : State := after 1 empty_folder.
Definition empty_folder_at_b : State :=
  after 1 (empty_folder ++ [OpUpdate (KeyMsg "down")]).

(** ** Vocabulary of the statements about toggling and the active item *)

(** The calls a toggle makes of a hook field that may be nil. *)
Definition hook_calls (f : option Hook) (mk : Hook → ptr → HookCall) (ti : ptr)
  : list HookCall :=
  match f with
  | Some h => [mk h ti]
  | None => []
  end.

(** Closing and then reopening [p] ends without a call of a hook. *)
Definition reopens_silently (st : State) (p : ptr) : Prop :=
  ∀ st1 calls1 st2 calls2,
    ToggleChildren p st = Ok (st1, calls1) →
    ToggleChildren p st1 = Ok (st2, calls2) →
    calls2 = [].

(** The active item is absent only in an empty tree, and otherwise is
    reached from the top-level list. *)
Definition active_item_sound (st : State) : Prop :=
  match ActiveItem st with
  | None => Items st = []
  | Some p => reachable st p
  end.

Definition refresh_free (ops : list Op) : Prop :=
  forallb (fun op => negb (is_refresh op)) ops = true.

(** What the operations other than the two [Refresh] keep true: the active
    item is sound, and every item that points to the tree is reached from
    the top-level list and has a holder that is the tree or such an item. *)
Definition holder_reachable (st : State) (h : ItemHolder) : Prop :=
  match h with
  | HNil => False
  | HTree => True
  | HItem a => reachable st a
  end.

Definition pointers_sound (st : State) : Prop :=
  ∀ p it, heap st !! p = Some it → ParentTree it = TheTree →
          reachable st p ∧ holder_reachable st (Parent it).

Definition tree_inv (st : State) : Prop :=
  active_item_sound st ∧ pointers_sound st.

(** The links of an item, and states with the same tree fields whose items
    have the same links (they may differ in [Open] and [indent]). *)
Definition links (it : TreeItem) : list ptr * ItemHolder * TreeRef :=
  (Children it, Parent it, ParentTree it).

Definition same_links (st st' : State) : Prop :=
  ActiveItem st' = ActiveItem st ∧ Items st' = Items st ∧
  ∀ q, links <$> heap st' !! q = links <$> heap st !! q.

(** An allocated (non-nil) pointer. *)
Definition allocated (st : State) (p : ptr) : Prop := is_Some (heap st !! p).

(** A store without nil or stray pointers: the top-level list, every child
    list, every parent reference to an item and the active item hold
    addresses of existing items only. *)
Definition closed (st : State) : Prop :=
  (∀ p, p ∈ Items st → allocated st p) ∧
  (∀ a ita, heap st !! a = Some ita →
     (∀ c, c ∈ Children ita → allocated st c) ∧
     (∀ p, Parent ita = HItem p → allocated st p)) ∧
  (∀ a, ActiveItem st = Some a → allocated st a).

(** The result of [SelectNext]: the same state, or the active item moved to
    a node, which is reachable when the pointers are sound and exists when
    the store is closed. *)
Definition moved (st st' : State) : Prop :=
  st' = st ∨
  ∃ q, st' = set_ActiveItem (Some q) st ∧
       (pointers_sound st → reachable st q) ∧ (closed st → allocated st q).



Section WellCalled.
Context `{Presentation}.


End WellCalled.

(** A folder P with [OpenFunc] 7 holding the folder C, which holds the leaf
    G; both folders are open (P by the space key, which calls the hook).
    Addresses: P is 0, C is 1, G is 2; P is active. *)
Definition open_grandchildren : list Op :=
  [OpNewItem "P" "d" true [] (Some 7%nat) None;
   OpNewItem "C" "d" true [] None None;
   OpNewItem "G" "-" false [] None None;
   OpTreeAddChildren [0%nat];
   OpItemAddChildren 0%nat [1%nat];
   OpItemAddChildren 1%nat [2%nat];
   OpUpdate (KeyMsg " ");
   OpOpenChildren 1%nat].

Definition open_grandchildren_state : State := after 1 open_grandchildren.





(** Two items allocated and not yet added to the tree. *)
Definition two_new_items : State :=
  after 1 [OpNewItem "A" "d" true [] None None; OpNewItem "B" "-" false [] None None].

(** A checker for the absence of open empty folders, over the whole store. *)
Definition no_open_emptyb (st : State) : bool :=
  bool_decide (map_Forall (fun _ it =>
                 negb (CanHaveChildren it && Open it)
                 || negb (bool_decide (Children it = [])) = true)
               (heap st)).

(** The nested tree with the active item on Item 2. *)
Definition nested_at_item2 : State :=
  after 3 (nested ++ [OpItemSelectNext 2%nat]).

(** The value of a result that is known to be [Ok]. *)
Definition result_value {A} (d : A) (r : result A) : A :=
  match r with
  | Ok a => a
  | _ => d
  end.

(** The nested tree in a window of height 10. *)
Definition nested_sized : State :=
  after 3 (nested ++ [OpUpdate (WindowSizeMsg 80 10)]).

(** ** Vocabulary of the statements about construction *)

(** State [st'] is [st] with the new nodes [news] hung under holder [h]:
    the new nodes were not in the tree, have no children and point to [h]
    and to the tree; every other allocated node keeps its links, the holder
    gaining the new nodes at the end of its list. *)
Definition grafted (st st' : State) (h : ItemHolder) (news : list ptr) : Prop :=
  NoDup news ∧ holder_reachable st h ∧
  Items st' = Items st ++ (if decide (h = HTree) then news else []) ∧
  (∀ c, c ∈ news →
     ¬ reachable st c ∧
     ∃ itc, heap st' !! c = Some itc ∧ Children itc = [] ∧
            Parent itc = h ∧ ParentTree itc = TheTree) ∧
  (∀ q itq, q ∉ news → heap st !! q = Some itq →
     ∃ itq', heap st' !! q = Some itq' ∧
             Parent itq' = Parent itq ∧ ParentTree itq' = ParentTree itq ∧
             Children itq' = Children itq ++ (if decide (h = HItem q) then news else []) ∧
             (CanHaveChildren itq = true ∨ h = HItem q → CanHaveChildren itq' = true)).

(** New items ready to be added: allocated, without children, and not yet
    in the tree. *)
Definition fresh_leaves (st : State) (news : list ptr) : Prop :=
  NoDup news ∧
  ∀ c, c ∈ news → ¬ reachable st c ∧ ∃ itc, heap st !! c = Some itc ∧ Children itc = [].

(** A folder A in the tree and a leaf B allocated but not added. *)
Definition folder_and_loose_leaf : State :=
  after 1 [OpNewItem "A" "d" true [] None None; OpNewItem "B" "-" false [] None None;
           OpTreeAddChildren [0%nat]].

(** A node that was added to itself: A is in the tree, then
    [A.AddChildren(A)]. *)
Definition self_parent : State :=
  after 1 [OpNewItem "A" "d" true [] None None; OpTreeAddChildren [0%nat];
           OpItemAddChildren 0%nat [0%nat]].

(** * Properties *)

(** ** Rendering a flat list of top-level items *)

Section FlatRendering.
Context `{Presentation}.

Lemma same_but_indent_refl st : same_but_indent st st.
Proof. by repeat split. Qed.

Lemma same_but_indent_trans st1 st2 st3 :
  same_but_indent st1 st2 → same_but_indent st2 st3 → same_but_indent st1 st3.
Proof.
  intros (?&?&?&?&?&?&Hheap1) (?&?&?&?&?&?&Hheap2).
  repeat split; try congruence.
  all: intros p; by rewrite Hheap1.
Qed.

Lemma same_but_indent_store st p it n :
  heap st !! p = Some it → same_but_indent st (store p (with_indent n it) st).
Proof.
  intros Hp. repeat split; try done. intros q. cbn.
  destruct (decide (p = q)) as [->|Hne].
  - rewrite lookup_insert_eq, Hp. by destruct it.
  - by rewrite lookup_insert_ne.
Qed.

Lemma same_but_indent_lookup st st' p it :
  same_but_indent st st' → heap st !! p = Some it →
  ∃ it', heap st' !! p = Some it' ∧ with_indent 0 it' = with_indent 0 it.
Proof.
  intros (_&_&_&_&_&_&Hh) Hp. specialize (Hh p). rewrite Hp in Hh.
  destruct (heap st' !! p) as [it'|]; [|done].
  exists it'. split; [done|].
  change (Some (with_indent 0 it) = Some (with_indent 0 it')) in Hh. congruence.
Qed.

Lemma flat_item_same st st' p :
  same_but_indent st st' → flat_item st p → flat_item st' p.
Proof.
  intros Hs (it & Hp & Hc & Ht).
  destruct (same_but_indent_lookup _ _ _ _ Hs Hp) as (it' & Hp' & Heq).
  exists it'. split; [done|].
  destruct it, it'. cbn in *. by simplify_eq.
Qed.

Lemma flat_text_same st st' t p :
  same_but_indent st st' → flat_text st t p = flat_text st' t p.
Proof.
  intros Hs. pose proof Hs as (_&_&HH&HA&_&_&Hh).
  unfold flat_text, row, bare_row. rewrite HH, HA.
  specialize (Hh p).
  destruct (heap st !! p) as [it|], (heap st' !! p) as [it'|]; try done.
  change (Some (with_indent 0 it) = Some (with_indent 0 it')) in Hh.
  assert (with_indent 0 it = with_indent 0 it') as Heq by congruence.
  by rewrite Heq.
Qed.

Lemma flat_rows_same st st' l t :
  same_but_indent st st' → flat_rows st l t = flat_rows st' l t.
Proof.
  intros Hs. revert t. induction l as [|p l IH]; intros t; [done|].
  cbn. by rewrite IH, (flat_text_same st st').
Qed.

(** [ScrollView] on a flat item whose [indent] is 0. *)
Lemma ScrollView_flat fuel st p it t :
  heap st !! p = Some it → Children it = [] → ParentTree it = TheTree →
  indent it = 0%Z →
  ScrollView (S fuel) p t (Height st) st = Ok (st, (t + 1)%Z, flat_text st t p).
Proof.
  intros Hp Hc Ht Hi. cbn. unfold deref. rewrite Hp. cbn. rewrite Ht, Hc. cbn.
  unfold flat_text, row, bare_row. rewrite Hp.
  assert (with_indent 0 it = it) as -> by (destruct it; cbn in *; by subst).
  destruct (Height st <? t + 1)%Z; [done|].
  by destruct (t <? 0)%Z.
Qed.

(** The loop of [Tree.View] over flat items: the counter advances by one per
    item, visited or clipped, and the rows are those of [flat_rows]. *)
Lemma View_loop_flat fuel l : ∀ st t views,
  Forall (flat_item st) l →
  ∃ st', View_loop (S fuel) l t views st
           = Ok (st', (t + Z.of_nat (length l))%Z, views ++ flat_rows st l t)
         ∧ same_but_indent st st'.
Proof.
  induction l as [|p l IH]; intros st t views Hall.
  - exists st. cbn. rewrite Z.add_0_r, app_nil_r. split; [done|apply same_but_indent_refl].
  - apply Forall_cons in Hall as [(it & Hp & Hc & Ht) Hall].
    set (st1 := store p (with_indent 0 it) st).
    assert (same_but_indent st st1) as Hs1 by by apply same_but_indent_store.
    assert (heap st1 !! p = Some (with_indent 0 it)) as Hp1
      by (cbn; apply lookup_insert_eq).
    assert (Height st1 = Height st) as HH by done.
    pose proof (ScrollView_flat fuel st1 p _ t Hp1 Hc Ht eq_refl) as HSV.
    assert (Forall (flat_item st1) l) as Hall1.
    { eapply Forall_impl; [exact Hall|]. intros q. by apply flat_item_same. }
    destruct (IH st1 (t + 1)%Z
                (if decide (flat_text st1 t p = "") then views
                 else views ++ [flat_text st1 t p]) Hall1) as (st' & Hloop & Hs').
    exists st'. split; [|by eapply same_but_indent_trans].
    change (View_loop (S fuel) (p :: l) t views st) with
      (c ← deref st p;
       '(st2, topline, v) ← ScrollView (S fuel) p t (Height (store p (with_indent 0 c) st))
                               (store p (with_indent 0 c) st);
       View_loop (S fuel) l topline (if decide (v = "") then views else views ++ [v]) st2).
    unfold deref at 1. rewrite Hp. cbn [mbind result_bind].
    fold st1. rewrite HSV. cbn [mbind result_bind]. rewrite Hloop.
    f_equal. f_equal.
    + f_equal. cbn [length]. lia.
    + cbn [flat_rows]. rewrite <- (flat_rows_same st st1), <- (flat_text_same st st1) by done.
      destruct (decide (flat_text st t p = "")); [done|]. by rewrite <- app_assoc.
Qed.

Lemma flat_text_visible st t p :
  (0 ≤ t)%Z → (t < Height st)%Z → flat_text st t p = row st p.
Proof.
  intros H0 H1. unfold flat_text.
  destruct (Z.ltb_spec (Height st) (t + 1)); [lia|].
  destruct (Z.ltb_spec t 0); [lia|done].
Qed.

Lemma flat_text_clipped st t p : (Height st ≤ t)%Z → flat_text st t p = "".
Proof.
  intros H1. unfold flat_text. destruct (Z.ltb_spec (Height st) (t + 1)); [done|lia].
Qed.

Lemma flat_text_above st t p :
  (t < 0)%Z → (t < Height st)%Z → flat_text st t p = bare_row st p.
Proof.
  intros H0 H1. unfold flat_text.
  destruct (Z.ltb_spec (Height st) (t + 1)); [lia|].
  destruct (Z.ltb_spec t 0); [done|lia].
Qed.

Lemma String_append_nonempty (s1 s2 : string) : s2 ≠ "" → s1 +:+ s2 ≠ "".
Proof. destruct s1; cbn; [done|discriminate]. Qed.

Lemma chevron_nonempty it : chevron it ≠ "".
Proof. unfold chevron. by repeat case_match. Qed.

(** The marker left for a row above the window is never the empty text. *)
Lemma bare_row_nonempty st p it : heap st !! p = Some it → bare_row st p ≠ "".
Proof.
  intros Hp. unfold bare_row, prefix. rewrite Hp.
  apply String_append_nonempty, chevron_nonempty.
Qed.

End FlatRendering.

Section FlatScenarios.
Context `{Presentation}.
Hypothesis focused_nonempty : ∀ s, focusedStyle s ≠ "".
Hypothesis unfocused_nonempty : ∀ s, unfocusedStyle s ≠ "".

Lemma row_nonempty st p : flat_item st p → row st p ≠ "".
Proof using focused_nonempty unfocused_nonempty.
  intros (it & Hp & _). unfold row. rewrite Hp. by case_decide.
Qed.

Lemma flat_rows_visible st p rest t :
  flat_item st p → (0 ≤ t)%Z → (t < Height st)%Z →
  flat_rows st (p :: rest) t = row st p :: flat_rows st rest (t + 1).
Proof using focused_nonempty unfocused_nonempty.
  intros Hp H0 H1. cbn [flat_rows]. rewrite flat_text_visible by done.
  destruct (decide (row st p = "")) as [He|]; [|done].
  by apply row_nonempty in He.
Qed.

Lemma flat_rows_above st p rest t :
  flat_item st p → (t < 0)%Z → (t < Height st)%Z →
  flat_rows st (p :: rest) t = bare_row st p :: flat_rows st rest (t + 1).
Proof.
  intros (it & Hp & _) H0 H1. cbn [flat_rows]. rewrite flat_text_above by done.
  destruct (decide (bare_row st p = "")) as [He|]; [|done].
  by apply (bare_row_nonempty _ _ _ Hp) in He.
Qed.

Lemma flat_rows_clipped st l : ∀ t, (Height st ≤ t)%Z → flat_rows st l t = [].
Proof.
  induction l as [|p l IH]; intros t Ht; [done|].
  cbn [flat_rows]. rewrite flat_text_clipped by done.
  rewrite IH by lia. by case_decide.
Qed.

(** C1.  Ten flat top-level items, a viewport of height 3 and [TopLine] 0:
    the render pass emits exactly the three rows of items 0, 1 and 2, in
    order; the counter returned once those three rows are out is 3.  (The
    loop of [Tree.View] then still visits the seven clipped items, each of
    which yields the empty text and moves the counter on, up to 10.) *)
Theorem scroll_clipping_boundary (st : State) (fuel : nat)
    (n0 n1 n2 n3 n4 n5 n6 n7 n8 n9 : ptr) :
  Items st = [n0; n1; n2; n3; n4; n5; n6; n7; n8; n9] →
  Forall (flat_item st) (Items st) →
  Height st = 3%Z → TopLine st = 0%Z → initialized st = true →
  ∃ st3 st',
    View_loop (S fuel) [n0; n1; n2] (TopLine st) [] st
      = Ok (st3, 3%Z, [row st n0; row st n1; row st n2]) ∧
    View_rows (S fuel) st = Ok (st', 10%Z, [row st n0; row st n1; row st n2]) ∧
    Tree_View (S fuel) st = Ok (st', JoinVertical [row st n0; row st n1; row st n2]).
Proof using focused_nonempty unfocused_nonempty.
  intros HI Hall HH HT Hinit.
  rewrite HI in Hall.
  assert (Forall (flat_item st) [n0; n1; n2]) as Hall3.
  { by apply (Forall_take _ 3) in Hall. }
  destruct (View_loop_flat fuel _ st 0%Z [] Hall3) as (st3 & Hthree & _).
  destruct (View_loop_flat fuel _ st 0%Z [] Hall) as (st' & Hten & _).
  pose proof Hall as Hall'.
  apply Forall_cons in Hall' as [F0 Hall']. apply Forall_cons in Hall' as [F1 Hall'].
  apply Forall_cons in Hall' as [F2 _].
  exists st3, st'.
  assert (View_rows (S fuel) st = Ok (st', 10%Z, [row st n0; row st n1; row st n2])) as HV.
  { unfold View_rows. rewrite HI, HT, Hten. f_equal.
    rewrite !flat_rows_visible by (done || lia).
    by rewrite flat_rows_clipped by lia. }
  split; [|split; [done|]].
  - rewrite HT, Hthree.
    rewrite !flat_rows_visible by (done || lia). done.
  - unfold Tree_View. rewrite Hinit, HV. done.
Qed.

(** C2, the behaviour of the code.  Ten flat top-level items, [TopLine] -2
    and height 5: the two rows counted at -2 and -1 are not styled, but the
    indentation-and-marker text already built for them is returned, is not
    empty, and is appended to the output.  The pass emits seven rows: two
    bare markers, then the rows of items 2 to 6. *)
Theorem negative_topline_rows (st : State) (fuel : nat)
    (n0 n1 n2 n3 n4 n5 n6 n7 n8 n9 : ptr) :
  Items st = [n0; n1; n2; n3; n4; n5; n6; n7; n8; n9] →
  Forall (flat_item st) (Items st) →
  Height st = 5%Z → TopLine st = (-2)%Z →
  ∃ st',
    View_rows (S fuel) st
      = Ok (st', 8%Z, [bare_row st n0; bare_row st n1; row st n2; row st n3;
                       row st n4; row st n5; row st n6]) ∧
    bare_row st n0 ≠ "" ∧ bare_row st n1 ≠ "".
Proof using focused_nonempty unfocused_nonempty.
  intros HI Hall HH HT.
  rewrite HI in Hall.
  destruct (View_loop_flat fuel _ st (-2)%Z [] Hall) as (st' & Hten & _).
  pose proof Hall as Hall'.
  apply Forall_cons in Hall' as [F0 Hall']. apply Forall_cons in Hall' as [F1 Hall'].
  apply Forall_cons in Hall' as [F2 Hall']. apply Forall_cons in Hall' as [F3 Hall'].
  apply Forall_cons in Hall' as [F4 Hall']. apply Forall_cons in Hall' as [F5 Hall'].
  apply Forall_cons in Hall' as [F6 _].
  exists st'. split; [|split].
  - unfold View_rows. rewrite HI, HT, Hten. f_equal.
    rewrite !flat_rows_above by (done || lia).
    rewrite !flat_rows_visible by (done || lia).
    by rewrite flat_rows_clipped by lia.
  - destruct F0 as (it & Hp & _). by eapply bare_row_nonempty.
  - destruct F1 as (it & Hp & _). by eapply bare_row_nonempty.
Qed.

End FlatScenarios.

Lemma plain_focused_nonempty : ∀ s, focusedStyle (Presentation := plain) s ≠ "".
Proof. intros s. discriminate. Qed.

Lemma plain_unfocused_nonempty : ∀ s, unfocusedStyle (Presentation := plain) s ≠ "".
Proof. intros s. discriminate. Qed.

Lemma scroll_clipping_boundary_witness :
  ∃ st3 st',
    View_loop (H := plain) 1 [0; 1; 2]%nat 0 [] flat10_height3
      = Ok (st3, 3%Z, ["| - N0|"; "  - N1 "; "  - N2 "]) ∧
    View_rows (H := plain) 1 flat10_height3
      = Ok (st', 10%Z, ["| - N0|"; "  - N1 "; "  - N2 "]) ∧
    Tree_View (H := plain) 1 flat10_height3
      = Ok (st', JoinVertical (Presentation := plain) ["| - N0|"; "  - N1 "; "  - N2 "]).
Proof.
  apply (scroll_clipping_boundary (H := plain) plain_focused_nonempty
           plain_unfocused_nonempty flat10_height3 0 0 1 2 3 4 5 6 7 8 9)%nat.
  - reflexivity.
  - repeat (apply Forall_cons; split;
            [eexists; split; [vm_compute; reflexivity | split; reflexivity] |]).
    apply Forall_nil_2.
  - reflexivity.
  - reflexivity.
  - reflexivity.
Defined.

(** C2 at the failing input: ten childless folders N0..N9, [TopLine] -2 and
    height 5.  The rows handed to [JoinVertical] are seven: the bare chevron
    of N0 and of N1 first, then the rows of N2..N6, where the claim has the
    five rows of N2..N6 only.  (For a leaf the bare marker is one space.) *)
Lemma negative_topline_emits_markers :
  ∃ st', View_rows (H := plain) 1 folders10_scrolled
         = Ok (st', 8%Z,
               [ChevronRight; ChevronRight;
                " " +:+ ChevronRight +:+ "d N2 "; " " +:+ ChevronRight +:+ "d N3 ";
                " " +:+ ChevronRight +:+ "d N4 "; " " +:+ ChevronRight +:+ "d N5 ";
                " " +:+ ChevronRight +:+ "d N6 "]).
Proof.
  destruct (negative_topline_rows (H := plain) plain_focused_nonempty
              plain_unfocused_nonempty folders10_scrolled 0 0 1 2 3 4 5 6 7 8 9)%nat
    as (st' & Hrows & _); [reflexivity| |reflexivity|reflexivity|].
  - repeat (apply Forall_cons; split;
            [eexists; split; [vm_compute; reflexivity | split; reflexivity] |]).
    apply Forall_nil_2.
  - exists st'. exact Hrows.
Qed.

(** ** Navigation *)

Lemma deref_Some st p it : heap st !! p = Some it → deref st p = Ok it.
Proof. intros Hp. unfold deref. by rewrite Hp. Qed.

Lemma activate_through_Ok st ti it q :
  heap st !! ti = Some it → ParentTree it = TheTree →
  activate_through st ti q = Ok (set_ActiveItem (Some q) st).
Proof. intros Hp Ht. unfold activate_through. rewrite (deref_Some _ _ _ Hp). cbn. by rewrite Ht. Qed.

Lemma GetItems_items_of st h l : items_of st h = Some l → GetItems st h = Ok l.
Proof.
  destruct h as [| |p]; cbn; try congruence.
  unfold deref. destruct (heap st !! p); cbn; congruence.
Qed.

(** The scan of [SelectNext] finds the sibling after the node's position. *)
Lemma scan_next_next_sibling ti l : scan_next ti l = next_sibling l ti.
Proof.
  unfold next_sibling. induction l as [|item rest IH]; [done|].
  cbn. destruct (decide (item = ti)) as [->|Hne].
  - by destruct rest.
  - rewrite IH. by destruct (index_of ti rest).
Qed.

Lemma index_of_elem ti l : ti ∈ l → is_Some (index_of ti l).
Proof.
  induction l as [|item rest IH]; intros Hin; [by apply elem_of_nil in Hin|].
  cbn. destruct (decide (item = ti)); [by eexists|].
  apply elem_of_cons in Hin as [->|Hin]; [done|].
  destruct (IH Hin) as [i ->]. by eexists.
Qed.

Lemma index_of_lookup ti l i : index_of ti l = Some i → l !! i = Some ti.
Proof.
  revert i. induction l as [|item rest IH]; intros i; [done|].
  cbn. destruct (decide (item = ti)) as [->|Hne].
  - by intros [= <-].
  - destruct (index_of ti rest) as [j|]; [|done]. intros [= <-]. by apply IH.
Qed.

Lemma index_of_first ti l i j : index_of ti l = Some i → l !! j = Some ti → (i ≤ j)%nat.
Proof.
  revert i j. induction l as [|item rest IH]; intros i j; [done|].
  cbn. destruct (decide (item = ti)) as [->|Hne].
  - intros [= <-] _. lia.
  - destruct (index_of ti rest) as [k|] eqn:Hk; [|done]. intros [= <-].
    destruct j as [|j]; cbn; [congruence|]. intros Hj.
    specialize (IH k j eq_refl Hj). lia.
Qed.

(** In a list without repetition the last element has no next sibling. *)
Lemma next_sibling_last l p : NoDup l → last l = Some p → next_sibling l p = None.
Proof.
  intros Hnd Hlast. unfold next_sibling.
  destruct (index_of p l) as [i|] eqn:Hi; [|done]. cbn.
  apply index_of_lookup in Hi.
  rewrite last_lookup in Hlast.
  assert (i = Nat.pred (length l)) as -> by by eapply NoDup_lookup.
  apply lookup_ge_None_2. apply lookup_lt_Some in Hi. lia.
Qed.

Lemma has_children_expanded it :
  (0 <? length (Children it))%nat && Open it = expanded it.
Proof.
  unfold expanded. destruct (Children it); cbn; [by rewrite andb_false_r|].
  by rewrite andb_true_r.
Qed.

(** One turn of the loop of [SelectNext], on a node that exists and whose
    holder has a list. *)
Lemma SelectNext_loop_step fuel st ti it l descend :
  heap st !! ti = Some it → items_of st (Parent it) = Some l →
  SelectNext_loop (S fuel) st ti descend =
    if expanded it && descend then
      match Children it !! 0%nat with
      | Some first => activate_through st ti first
      | None => Panicked IndexOutOfRange
      end
    else
      match next_sibling l ti with
      | Some nxt => activate_through st ti nxt
      | None =>
          if holder_is_tree (Parent it) (ParentTree it) then Ok st
          else
            match Parent it with
            | HItem par => SelectNext_loop fuel st par false
            | _ => Panicked BadTypeAssertion
            end
      end.
Proof.
  intros Hp Hl.
  change (SelectNext_loop (S fuel) st ti descend) with
    (it ← deref st ti;
     parentItems ← GetItems st (Parent it);
     if (0 <? length (Children it))%nat && Open it && descend then
       match Children it !! 0%nat with
       | Some first => activate_through st ti first
       | None => Panicked IndexOutOfRange
       end
     else
       match scan_next ti parentItems with
       | Some nxt => activate_through st ti nxt
       | None =>
           if holder_is_tree (Parent it) (ParentTree it) then Ok st
           else
             match Parent it with
             | HItem par => SelectNext_loop fuel st par false
             | _ => Panicked BadTypeAssertion
             end
       end).
  rewrite (deref_Some _ _ _ Hp). cbn [mbind result_bind].
  rewrite (GetItems_items_of _ _ _ Hl). cbn [mbind result_bind].
  by rewrite has_children_expanded, scan_next_next_sibling.
Qed.

(** A turn of the loop of [SelectNext] that does not descend. *)
Lemma SelectNext_loop_no_descend fuel st ti it l descend :
  heap st !! ti = Some it → items_of st (Parent it) = Some l →
  expanded it && descend = false →
  SelectNext_loop fuel st ti descend = SelectNext_loop fuel st ti false.
Proof.
  intros Hp Hl Hexp. destruct fuel as [|fuel]; [done|].
  rewrite !(SelectNext_loop_step _ _ _ _ _ _ Hp Hl).
  by rewrite Hexp, andb_false_r.
Qed.

(** Climbing from an attached node: the loop returns, and moves the active
    item to the next sibling of the nearest ancestor that has one. *)
Lemma SelectNext_loop_climb st ti :
  attached st ti →
  ∃ r, next_of_ancestor st ti r ∧
       ∃ fuel0, ∀ fuel, (fuel0 ≤ fuel)%nat →
         SelectNext_loop fuel st ti false = Ok (moved_to r st).
Proof.
  induction 1 as [p it Hp HP HT Hin | p it a ita Hp HP HT Ha Hin Hatt IH].
  - assert (items_of st (Parent it) = Some (Items st)) as Hl by by rewrite HP.
    destruct (next_sibling (Items st) p) as [q|] eqn:Hq.
    + exists (Some q). split; [by eapply next_here|].
      exists 1%nat. intros [|fuel] Hf; [lia|].
      rewrite (SelectNext_loop_step _ _ _ _ _ _ Hp Hl), andb_false_r, Hq.
      by eapply activate_through_Ok.
    + exists None. split; [by eapply next_none|].
      exists 1%nat. intros [|fuel] Hf; [lia|].
      rewrite (SelectNext_loop_step _ _ _ _ _ _ Hp Hl), andb_false_r, Hq.
      by rewrite HP, HT.
  - assert (items_of st (Parent it) = Some (Children ita)) as Hl
      by (rewrite HP; cbn; by rewrite Ha).
    destruct (next_sibling (Children ita) p) as [q|] eqn:Hq.
    + exists (Some q). split; [by eapply next_here|].
      exists 1%nat. intros [|fuel] Hf; [lia|].
      rewrite (SelectNext_loop_step _ _ _ _ _ _ Hp Hl), andb_false_r, Hq.
      by eapply activate_through_Ok.
    + destruct IH as (r & Hr & fuel0 & Hloop).
      exists r. split; [by eapply next_climb|].
      exists (S fuel0). intros [|fuel] Hf; [lia|].
      rewrite (SelectNext_loop_step _ _ _ _ _ _ Hp Hl), andb_false_r, Hq.
      rewrite HP. cbn. apply Hloop. lia.
Qed.

Lemma attached_lookup st p : attached st p →
  ∃ it, heap st !! p = Some it ∧ ParentTree it = TheTree ∧ is_Some (items_of st (Parent it)).
Proof.
  destruct 1 as [p it Hp HP HT _|p it a ita Hp HP HT Ha _ _]; exists it; rewrite HP; cbn.
  - done.
  - by rewrite Ha.
Qed.

(** [Tree.SelectNext] from an attached active node returns and moves to the
    target of select-next. *)
Lemma Tree_SelectNext_target st ti :
  ActiveItem st = Some ti → attached st ti →
  ∃ r, select_next_target st ti r ∧
       ∃ fuel0, ∀ fuel, (fuel0 ≤ fuel)%nat →
         Tree_SelectNext fuel st = Ok (moved_to r st).
Proof.
  intros Hact Hatt.
  destruct (attached_lookup _ _ Hatt) as (it & Hp & HT & l & Hl).
  unfold Tree_SelectNext, TreeItem_SelectNext. rewrite Hact.
  destruct (expanded it) eqn:Hexp.
  - pose proof Hexp as Hexp'.
    unfold expanded in Hexp'. apply andb_true_iff in Hexp' as [Hopen Hne].
    apply bool_decide_eq_true in Hne.
    destruct (Children it) as [|c cs] eqn:Hc; [done|].
    exists (Some c). split.
    { exists it. split; [done|]. by rewrite Hexp, Hc. }
    exists 1%nat. intros [|fuel] Hf; [lia|].
    rewrite (SelectNext_loop_step _ _ _ _ _ _ Hp Hl), Hexp, Hc. cbn.
    by eapply activate_through_Ok.
  - destruct (SelectNext_loop_climb _ _ Hatt) as (r & Hr & fuel0 & Hloop).
    exists r. split.
    { exists it. split; [done|]. by rewrite Hexp. }
    exists fuel0. intros fuel Hf.
    rewrite (SelectNext_loop_no_descend _ _ _ it l) by (done || by rewrite Hexp).
    by apply Hloop.
Qed.

(** C3.  From an attached active node, [SelectNext] returns; it activates
    the first child when the node is open and has one; otherwise the next
    sibling; otherwise the next sibling of the nearest ancestor that has one,
    never descending on the way up; and it changes nothing when the climb
    ends at the tree. *)
Theorem SelectNext_characterised (st : State) (ti : ptr) :
  ActiveItem st = Some ti → attached st ti →
  ∃ r, select_next_target st ti r ∧
       ∃ fuel0, ∀ fuel, (fuel0 ≤ fuel)%nat →
         Tree_SelectNext fuel st = Ok (moved_to r st).
Proof. apply Tree_SelectNext_target. Qed.

Lemma next_of_ancestor_functional st p r1 r2 :
  next_of_ancestor st p r1 → next_of_ancestor st p r2 → r1 = r2.
Proof.
  intros H1. revert r2.
  induction H1 as [p it l q Hp Hl Hq|p it Hp HP Hq|p it a l r Hp HP Hl Hq Hr IH];
    intros r2 H2;
    inversion H2 as [p' it' l' q' Hp' Hl' Hq'|p' it' Hp' HP' Hq'
                    |p' it' a' l' r' Hp' HP' Hl' Hq' Hr']; simplify_eq;
    try match goal with
        | HP : Parent ?it = HTree, Hl : items_of _ (Parent ?it) = Some _ |- _ =>
            rewrite HP in Hl; cbn in Hl
        end;
    first [done | congruence | apply IH; congruence].
Qed.

Lemma last_elem_of {A} (l : list A) x : last l = Some x → x ∈ l.
Proof. rewrite last_lookup. apply list_elem_of_lookup_2. Qed.

(** A last sibling that does not descend hands the move to its holder. *)
Lemma SelectNext_loop_last st h l p d :
  items_of st h = Some l → listed_under st h l → last l = Some p →
  (∀ it, heap st !! p = Some it → expanded it && d = false) →
  climb_noop st h →
  ∃ fuel0, ∀ fuel, (fuel0 ≤ fuel)%nat → SelectNext_loop fuel st p d = Ok st.
Proof.
  intros Hl [Hnd Hlist] Hlast Hexp Hclimb.
  destruct (Hlist p (last_elem_of _ _ Hlast)) as (it & Hp & HP & HT).
  specialize (Hexp it Hp). rewrite <- HP in Hl.
  pose proof (next_sibling_last _ _ Hnd Hlast) as Hnone.
  destruct h as [| |a]; cbn in Hclimb; [done| |].
  - exists 1%nat. intros [|fuel] Hf; [lia|].
    rewrite (SelectNext_loop_step _ _ _ _ _ _ Hp Hl), Hexp, Hnone.
    by rewrite HP, HT.
  - destruct Hclimb as (fuel0 & Hloop).
    exists (S fuel0). intros [|fuel] Hf; [lia|].
    rewrite (SelectNext_loop_step _ _ _ _ _ _ Hp Hl), Hexp, Hnone.
    rewrite HP. cbn. apply Hloop. lia.
Qed.

Lemma SelectNext_loop_last_row st :
  valid st →
  ∀ l p, last_row st l p →
  ∀ h, items_of st h = Some l → listed_under st h l →
       (∀ x, x ∈ l → reachable st x) → climb_noop st h →
  ∃ fuel0, ∀ fuel, (fuel0 ≤ fuel)%nat → SelectNext_loop fuel st p true = Ok st.
Proof.
  intros [_ Hvalid]. induction 1 as [l p it Hlast Hp Hexp|l q it p Hlast Hq Hexp Hrow IH];
    intros h Hl Hlisted Hreach Hclimb.
  - eapply SelectNext_loop_last; try done.
    intros it' Hp'. simplify_eq. by rewrite Hexp.
  - assert (reachable st q) as Hrq by (apply Hreach; by apply last_elem_of).
    destruct (Hvalid q it Hrq Hq) as [Hkids _].
    apply (IH (HItem q)); try done.
    + cbn. by rewrite Hq.
    + intros x Hx. by eapply reachable_child.
    + cbn. eapply SelectNext_loop_last; try done.
      intros it' _. apply andb_false_r.
Qed.

Lemma index_of_head ti rest : index_of ti (ti :: rest) = Some 0%nat.
Proof. cbn. by rewrite decide_True. Qed.

(** C7.  No wraparound: on a valid tree, [SelectPrevious] from the first
    top-level node, and [SelectNext] from the last visible row of the last
    top-level node, return and leave the state, hence the active item, as it
    was. *)
Theorem no_wraparound (st : State) (ti : ptr) :
  valid st → ActiveItem st = Some ti →
  (Items st !! 0%nat = Some ti → ∀ fuel, Tree_SelectPrevious fuel st = Ok st) ∧
  (last_row st (Items st) ti →
   ∃ fuel0, ∀ fuel, (fuel0 ≤ fuel)%nat → Tree_SelectNext fuel st = Ok st).
Proof.
  intros Hvalid Hact. split.
  - intros Hfirst fuel. destruct Hvalid as [[_ Htop] _].
    destruct (Htop ti) as (it & Hp & HP & HT); [by eapply list_elem_of_lookup_2|].
    unfold Tree_SelectPrevious, TreeItem_SelectPrevious. rewrite Hact.
    rewrite (deref_Some _ _ _ Hp). cbn [mbind result_bind].
    rewrite HP. cbn [GetItems mbind result_bind].
    destruct (Items st) as [|x rest]; [done|]. cbn in Hfirst. simplify_eq.
    by rewrite index_of_head.
  - intros Hrow. unfold Tree_SelectNext, TreeItem_SelectNext. rewrite Hact.
    eapply (SelectNext_loop_last_row st Hvalid _ _ Hrow HTree); try done.
    + apply Hvalid.
    + intros x Hx. by apply reachable_top.
Qed.

Lemma listed_underb_sound st h l : listed_underb st h l = true → listed_under st h l.
Proof.
  unfold listed_underb. intros [Hnd Hall]%andb_true_iff.
  apply bool_decide_eq_true in Hnd. split; [done|].
  intros p Hp. rewrite forallb_forall in Hall.
  specialize (Hall p). rewrite <- list_elem_of_In in Hall. specialize (Hall Hp).
  destruct (heap st !! p) as [it|]; [|done].
  apply andb_true_iff in Hall as [H1 H2].
  apply bool_decide_eq_true in H1, H2. by exists it.
Qed.

Lemma validb_sound st : validb st = true → valid st.
Proof.
  unfold validb. intros [Htop Hall]%andb_true_iff.
  apply bool_decide_eq_true in Hall.
  split; [by apply listed_underb_sound|].
  intros a ita _ Ha. specialize (Hall a ita Ha). cbn in Hall.
  apply andb_true_iff in Hall as [H1 H2]. split; [by apply listed_underb_sound|].
  intros Hne. apply orb_true_iff in H2 as [H2|H2]; [|done].
  by apply bool_decide_eq_true in H2.
Qed.

(** Build the derivation that a node of a concrete store is attached. *)
Ltac solve_elem := vm_compute; repeat constructor.
Ltac solve_attached :=
  first
    [ eapply attached_top;
      [vm_compute; reflexivity | reflexivity | reflexivity | solve_elem]
    | eapply attached_child;
      [vm_compute; reflexivity | reflexivity | reflexivity
      | vm_compute; reflexivity | solve_elem | solve_attached] ].

Lemma SelectNext_characterised_witness :
  ∃ r, select_next_target nested_at_subsub1 2%nat r ∧
       ∃ fuel0, ∀ fuel, (fuel0 ≤ fuel)%nat →
         Tree_SelectNext fuel nested_at_subsub1 = Ok (moved_to r nested_at_subsub1).
Proof.
  apply (SelectNext_characterised nested_at_subsub1 2%nat).
  - reflexivity.
  - solve_attached.
Defined.

Lemma no_wraparound_witness :
  (∀ fuel, Tree_SelectPrevious fuel nested_at_item1 = Ok nested_at_item1) ∧
  (∃ fuel0, ∀ fuel, (fuel0 ≤ fuel)%nat →
     Tree_SelectNext fuel nested_at_bb = Ok nested_at_bb).
Proof.
  split.
  - apply (no_wraparound nested_at_item1 0%nat).
    + apply validb_sound. vm_compute. reflexivity.
    + reflexivity.
    + reflexivity.
  - apply (no_wraparound nested_at_bb 5%nat).
    + apply validb_sound. vm_compute. reflexivity.
    + reflexivity.
    + eapply last_row_below; [reflexivity|vm_compute; reflexivity|reflexivity|].
      eapply last_row_here; [reflexivity|vm_compute; reflexivity|reflexivity].
Defined.

(** ** The open folder without children *)

(** [descend_last] with enough fuel, when the descent never meets an open
    folder without children. *)
Lemma descend_last_deepest st q r :
  deepest_last st q r →
  ∃ fuel0, ∀ fuel, (fuel0 ≤ fuel)%nat → descend_last fuel st q = Ok r.
Proof.
  induction 1 as [p it Hp Hstop|p it kid r Hp Hgo Hlast Hrest (fuel0 & IH)].
  - exists 1%nat. intros [|fuel] Hf; [lia|].
    cbn. rewrite (deref_Some _ _ _ Hp). cbn. by rewrite Hstop.
  - exists (S fuel0). intros [|fuel] Hf; [lia|].
    cbn. rewrite (deref_Some _ _ _ Hp). cbn. rewrite Hgo, Hlast. apply IH. lia.
Qed.

Lemma previous_sibling_index l p q :
  previous_sibling l p = Some q → ∃ x, index_of p l = Some (S x) ∧ l !! x = Some q.
Proof.
  unfold previous_sibling. destruct (index_of p l) as [[|x]|]; cbn; try done.
  intros Hq. by exists x.
Qed.

(** Where the descent exists, [SelectPrevious] from a node with a previous
    sibling activates the deepest last open descendant of that sibling. *)
Lemma SelectPrevious_previous_sibling st ti it l q r :
  ActiveItem st = Some ti → heap st !! ti = Some it → ParentTree it = TheTree →
  items_of st (Parent it) = Some l → previous_sibling l ti = Some q →
  deepest_last st q r →
  ∃ fuel0, ∀ fuel, (fuel0 ≤ fuel)%nat →
    Tree_SelectPrevious fuel st = Ok (set_ActiveItem (Some r) st).
Proof.
  intros Hact Hp HT Hl Hq Hdeep.
  destruct (descend_last_deepest _ _ _ Hdeep) as (fuel0 & Hdesc).
  destruct (previous_sibling_index _ _ _ Hq) as (x & Hx & Hlx).
  exists fuel0. intros fuel Hf.
  unfold Tree_SelectPrevious, TreeItem_SelectPrevious. rewrite Hact.
  rewrite (deref_Some _ _ _ Hp). cbn [mbind result_bind].
  rewrite (GetItems_items_of _ _ _ Hl). cbn [mbind result_bind].
  rewrite Hx, Hlx, (Hdesc fuel Hf). cbn [mbind result_bind].
  by eapply activate_through_Ok.
Qed.

(** C5 at the failing input.  Two items A and B are added to a new tree; A
    can have children and has none.  Space opens A, "down" moves to B, and
    "up" panics: [SelectPrevious] reads [A.Children[-1]].  The state in
    which "up" is pressed is structurally valid. *)
Lemma SelectPrevious_panics_on_open_empty_folder :
  validb empty_folder_at_b = true ∧
  ∀ fuel,
    run (H := plain) (S fuel)
        (empty_folder ++ [OpUpdate (KeyMsg "down"); OpUpdate (KeyMsg "up")]) New
    = Panicked IndexOutOfRange.
Proof. split; [vm_compute; reflexivity|]. intros fuel. vm_compute. reflexivity. Qed.

(** C4 at the failing input.  The active node B has the previous sibling A;
    A can have children, is open and is childless.  The claim stops the
    descent at A and activates it; the code panics instead. *)
Lemma SelectPrevious_misses_childless_candidate :
  ActiveItem empty_folder_at_b = Some 1%nat ∧
  previous_sibling (Items empty_folder_at_b) 1%nat = Some 0%nat ∧
  (Children <$> heap empty_folder_at_b !! 0%nat) = Some [] ∧
  ∀ fuel, Tree_SelectPrevious (S fuel) empty_folder_at_b = Panicked IndexOutOfRange.
Proof.
  split; [reflexivity|]. split; [reflexivity|]. split; [vm_compute; reflexivity|].
  intros fuel. vm_compute. reflexivity.
Qed.

(** C6 at the failing input.  A is active, and is not the last visible row
    (B follows).  [SelectNext] moves to B; [SelectPrevious] then panics, so
    the pair of moves does not return to A. *)
Lemma next_then_previous_panics :
  ActiveItem empty_folder_at_a = Some 0%nat ∧
  ∀ fuel,
    (st1 ← Tree_SelectNext (S fuel) empty_folder_at_a; Tree_SelectPrevious (S fuel) st1)
    = Panicked IndexOutOfRange.
Proof. split; [reflexivity|]. intros fuel. vm_compute. reflexivity. Qed.

(** ** Toggling *)

Lemma with_Open_restore it : Open it = true → with_Open true (with_Open false it) = it.
Proof. destruct it; cbn. by intros ->. Qed.

Lemma store_store p it1 it2 st : store p it2 (store p it1 st) = store p it2 st.
Proof. unfold store, set_heap. cbn. by rewrite insert_insert_eq. Qed.

Lemma store_same p it st : heap st !! p = Some it → store p it st = st.
Proof. intros Hp. unfold store, set_heap. rewrite insert_id by done. by destruct st. Qed.

(** C8 as stated fails at its last part: reopening the folder P of
    [open_grandchildren_state], whose child C is open, calls P's [OpenFunc]
    again. *)
Lemma reopen_calls_OpenFunc_again :
  ¬ reopens_silently open_grandchildren_state 0%nat.
Proof.
  intros Hsilent.
  specialize (Hsilent _ _ _ _ eq_refl eq_refl). discriminate Hsilent.
Qed.

(** C8, amended.  Toggling an open folder closed changes nothing but that
    folder's own [Open] flag: every other item, so every descendant with its
    [Open] flag and children, is as before.  Toggling it open again gives
    back the very state before the two toggles, so the rendering shows the
    open grandchildren again.  Each toggle calls the hook of its direction
    when one is set: the reopening does call [OpenFunc]. *)
Theorem toggle_close_then_reopen (st : State) (p : ptr) (it : TreeItem) :
  heap st !! p = Some it → CanHaveChildren it = true → Open it = true →
  ∃ st1,
    ToggleChildren p st = Ok (st1, hook_calls (CloseFunc it) CloseCall p) ∧
    heap st1 !! p = Some (with_Open false it) ∧
    (∀ q, q ≠ p → heap st1 !! q = heap st !! q) ∧
    ToggleChildren p st1 = Ok (st, hook_calls (OpenFunc it) OpenCall p).
Proof.
  intros Hp Hcan Hopen.
  exists (store p (with_Open false it) st).
  assert (heap (store p (with_Open false it) st) !! p = Some (with_Open false it)) as Hp1
    by (cbn; apply lookup_insert_eq).
  split; [|split; [done|split]].
  - unfold ToggleChildren. rewrite (deref_Some _ _ _ Hp). cbn [mbind result_bind].
    rewrite Hcan, Hopen. cbn. by destruct (CloseFunc it).
  - intros q Hq. cbn. by rewrite lookup_insert_ne.
  - unfold ToggleChildren. rewrite (deref_Some _ _ _ Hp1). cbn [mbind result_bind].
    change (CanHaveChildren (with_Open false it)) with (CanHaveChildren it).
    rewrite Hcan. change (negb (Open (with_Open false it))) with true.
    rewrite with_Open_restore by done.
    rewrite store_store, (store_same _ _ _ Hp). rewrite Hopen.
    by destruct (OpenFunc it).
Qed.

Lemma toggle_close_then_reopen_witness :
  ∃ st1,
    ToggleChildren 0%nat open_grandchildren_state = Ok (st1, []) ∧
    heap st1 !! 0%nat
      = Some (mkTreeItem TheTree HTree "d" "P" [1%nat] true false (Some 7%nat) None 0) ∧
    (∀ q, q ≠ 0%nat → heap st1 !! q = heap open_grandchildren_state !! q) ∧
    ToggleChildren 0%nat st1 = Ok (open_grandchildren_state, [OpenCall 7%nat 0%nat]).
Proof.
  apply (toggle_close_then_reopen open_grandchildren_state 0%nat
           (mkTreeItem TheTree HTree "d" "P" [1%nat] true true (Some 7%nat) None 0)).
  - vm_compute. reflexivity.
  - reflexivity.
  - reflexivity.
Defined.

(** ** The active item along the operations *)

Lemma reachable_mono st st' p :
  Items st ⊆ Items st' →
  (∀ q ita, heap st !! q = Some ita →
            ∃ ita', heap st' !! q = Some ita' ∧ Children ita ⊆ Children ita') →
  reachable st p → reachable st' p.
Proof.
  intros HI Hh. induction 1 as [p Hp|a ita p _ IH Ha Hp].
  - apply reachable_top. by apply HI.
  - destruct (Hh a ita Ha) as (ita' & Ha' & Hsub).
    eapply reachable_child; [exact IH|exact Ha'|by apply Hsub].
Qed.

Lemma same_links_sym st st' : same_links st st' → same_links st' st.
Proof. intros (HA & HI & Hh). by repeat split. Qed.

Lemma same_links_lookup st st' q it :
  same_links st st' → heap st !! q = Some it →
  ∃ it', heap st' !! q = Some it' ∧ links it' = links it.
Proof.
  intros (_ & _ & Hh) Hq. specialize (Hh q). rewrite Hq in Hh.
  destruct (heap st' !! q) as [it'|]; [|done].
  exists it'. split; [done|]. change (Some (links it') = Some (links it)) in Hh. congruence.
Qed.

Lemma same_links_reachable st st' p :
  same_links st st' → reachable st p → reachable st' p.
Proof.
  intros Hs. apply reachable_mono.
  - destruct Hs as (_ & -> & _). done.
  - intros q ita Hq. destruct (same_links_lookup _ _ _ _ Hs Hq) as (ita' & Hq' & Hl).
    exists ita'. split; [done|]. unfold links in Hl.
    assert (Children ita' = Children ita) as -> by congruence. done.
Qed.

(** Changing only [Open] and [indent] fields keeps the invariant. *)
Lemma tree_inv_same_links st st' : same_links st st' → tree_inv st → tree_inv st'.
Proof.
  intros Hs [Hact Hptr]. pose proof Hs as (HA & HI & _). split.
  - unfold active_item_sound in *. rewrite HA, HI.
    destruct (ActiveItem st); [by eapply same_links_reachable|done].
  - intros p it' Hp HT.
    destruct (same_links_lookup _ _ _ _ (same_links_sym _ _ Hs) Hp) as (it & Hp0 & Hl).
    unfold links in Hl. simplify_eq.
    destruct (Hptr p it Hp0) as [Hr Hh]; [congruence|].
    split; [by eapply same_links_reachable|].
    replace (Parent it') with (Parent it) by congruence.
    destruct (Parent it); cbn in *; try done. by eapply same_links_reachable.
Qed.

Lemma same_links_store st p it it' :
  heap st !! p = Some it → links it' = links it → same_links st (store p it' st).
Proof.
  intros Hp Hl. repeat split; try done. intros q. cbn.
  destruct (decide (p = q)) as [<-|Hne].
  - rewrite lookup_insert_eq, Hp. cbn. by rewrite Hl.
  - by rewrite lookup_insert_ne.
Qed.

Lemma same_but_indent_same_links st st' : same_but_indent st st' → same_links st st'.
Proof.
  intros (_&_&_&HA&HI&_&Hh). repeat split; try done. intros q. specialize (Hh q).
  destruct (heap st !! q) as [it|], (heap st' !! q) as [it'|]; try done.
  change (Some (with_indent 0 it) = Some (with_indent 0 it')) in Hh.
  assert (links (with_indent 0 it') = links (with_indent 0 it)) as Hl by congruence.
  cbn. f_equal. exact Hl.
Qed.

Lemma set_ActiveItem_reachable st a p :
  reachable st p ↔ reachable (set_ActiveItem a st) p.
Proof. split; apply reachable_mono; cbn; eauto. Qed.

(** Moving the active item to a reachable node keeps the invariant. *)
Lemma tree_inv_set_ActiveItem st q :
  tree_inv st → reachable st q → tree_inv (set_ActiveItem (Some q) st).
Proof.
  intros [_ Hptr] Hq. split.
  - unfold active_item_sound. cbn. by apply set_ActiveItem_reachable.
  - intros p it Hp HT. destruct (Hptr p it Hp HT) as [Hr Hh].
    split; [by apply set_ActiveItem_reachable|].
    destruct (Parent it); cbn in *; try done. by apply set_ActiveItem_reachable.
Qed.

Lemma scan_next_elem ti l q : scan_next ti l = Some q → q ∈ l.
Proof.
  induction l as [|item rest IH]; [done|]. cbn.
  destruct (decide (item = ti)).
  - destruct rest as [|nxt rest']; [done|]. intros [= ->].
    apply elem_of_cons. right. apply list_elem_of_here.
  - intros Hq. apply elem_of_cons. right. by apply IH.
Qed.

(** The items of the holder of an item that points to the tree. *)
Lemma holder_items_reachable st h l q :
  holder_reachable st h → GetItems st h = Ok l → q ∈ l → reachable st q.
Proof.
  destruct h as [| |a]; cbn; [done| |].
  - intros _ [= <-]. apply reachable_top.
  - intros Ha. unfold deref. destruct (heap st !! a) as [ita|] eqn:Hita; cbn; [|done].
    intros [= <-] Hq. by eapply reachable_child.
Qed.

(** The items of a holder in a closed store exist. *)
Lemma holder_items_allocated st h l q :
  closed st → GetItems st h = Ok l → q ∈ l → allocated st q.
Proof.
  intros (Htop & Hrec & _). destruct h as [| |a]; cbn; [done| |].
  - intros [= <-]. apply Htop.
  - unfold deref. destruct (heap st !! a) as [ita|] eqn:Hita; cbn; [|done].
    intros [= <-]. by apply (Hrec a ita).
Qed.

Lemma activate_through_inv st ti q st' :
  activate_through st ti q = Ok st' →
  st' = set_ActiveItem (Some q) st ∧
  ∃ it, heap st !! ti = Some it ∧ ParentTree it = TheTree.
Proof.
  unfold activate_through, deref. destruct (heap st !! ti) as [it|]; cbn; [|done].
  destruct (ParentTree it) eqn:HT; [done|]. intros [= <-]. split; [done|]. by exists it.
Qed.

Lemma deref_Ok st p it : deref st p = Ok it → heap st !! p = Some it.
Proof. unfold deref. by destruct (heap st !! p); intros [= <-]. Qed.

Lemma SelectNext_loop_unfold fuel st ti descend :
  SelectNext_loop (S fuel) st ti descend =
    (it ← deref st ti;
     parentItems ← GetItems st (Parent it);
     if (0 <? length (Children it))%nat && Open it && descend then
       match Children it !! 0%nat with
       | Some first => activate_through st ti first
       | None => Panicked IndexOutOfRange
       end
     else
       match scan_next ti parentItems with
       | Some nxt => activate_through st ti nxt
       | None =>
           if holder_is_tree (Parent it) (ParentTree it) then Ok st
           else
             match Parent it with
             | HItem par => SelectNext_loop fuel st par false
             | _ => Panicked BadTypeAssertion
             end
       end).
Proof. reflexivity. Qed.

Lemma SelectNext_loop_moved fuel : ∀ st ti descend st',
  SelectNext_loop fuel st ti descend = Ok st' → moved st st'.
Proof.
  induction fuel as [|fuel IH]; intros st ti descend st'; [done|].
  rewrite SelectNext_loop_unfold.
  destruct (deref st ti) as [it| |] eqn:Hp; cbn [mbind result_bind]; try done.
  apply deref_Ok in Hp.
  destruct (GetItems st (Parent it)) as [l| |] eqn:Hl; cbn [mbind result_bind]; try done.
  destruct ((0 <? length (Children it))%nat && Open it && descend).
  - destruct (Children it !! 0%nat) as [first|] eqn:Hfirst; [|done].
    intros (-> & it' & Hp' & HT)%activate_through_inv. simplify_eq.
    right. exists first. split; [done|]. split.
    + intros Hptr. destruct (Hptr ti _ Hp HT) as [Hr _].
      eapply reachable_child; [done..|]. by eapply list_elem_of_lookup_2.
    + intros Hcl. apply (proj1 (proj1 (proj2 Hcl) ti _ Hp)).
      by eapply list_elem_of_lookup_2.
  - destruct (scan_next ti l) as [nxt|] eqn:Hscan.
    + intros (-> & it' & Hp' & HT)%activate_through_inv. simplify_eq.
      right. exists nxt. split; [done|]. split.
      * intros Hptr. destruct (Hptr ti _ Hp HT) as [_ Hh].
        eapply holder_items_reachable; [done..|]. by eapply scan_next_elem.
      * intros Hcl. eapply holder_items_allocated; [done..|]. by eapply scan_next_elem.
    + destruct (holder_is_tree (Parent it) (ParentTree it)); [intros [= <-]; by left|].
      destruct (Parent it) as [| |par]; try done. apply IH.
Qed.

Lemma descend_last_reachable fuel : ∀ st q r,
  descend_last fuel st q = Ok r → reachable st q → reachable st r.
Proof.
  induction fuel as [|fuel IH]; intros st q r; [done|].
  change (descend_last (S fuel) st q) with
    (it ← deref st q;
     if CanHaveChildren it && Open it then
       match last (Children it) with
       | Some kid => descend_last fuel st kid
       | None => Panicked IndexOutOfRange
       end
     else Ok q).
  destruct (deref st q) as [it| |] eqn:Hq; cbn [mbind result_bind]; try done.
  apply deref_Ok in Hq.
  destruct (CanHaveChildren it && Open it).
  - destruct (last (Children it)) as [kid|] eqn:Hlast; [|done].
    intros Hr Hreach. eapply IH; [done|].
    eapply reachable_child; [done..|]. by apply last_elem_of.
  - by intros [= <-].
Qed.

(** The descent of [SelectPrevious] ends on an existing item. *)
Lemma descend_last_allocated fuel : ∀ st q r,
  descend_last fuel st q = Ok r → allocated st r.
Proof.
  induction fuel as [|fuel IH]; intros st q r; [done|].
  change (descend_last (S fuel) st q) with
    (it ← deref st q;
     if CanHaveChildren it && Open it then
       match last (Children it) with
       | Some kid => descend_last fuel st kid
       | None => Panicked IndexOutOfRange
       end
     else Ok q).
  destruct (deref st q) as [it| |] eqn:Hq; cbn [mbind result_bind]; try done.
  apply deref_Ok in Hq.
  destruct (CanHaveChildren it && Open it).
  - destruct (last (Children it)) as [kid|]; [|done]. apply IH.
  - intros [= <-]. by exists it.
Qed.

Lemma TreeItem_SelectPrevious_moved fuel st ti st' :
  TreeItem_SelectPrevious fuel ti st = Ok st' → moved st st'.
Proof.
  unfold TreeItem_SelectPrevious.
  destruct (deref st ti) as [it| |] eqn:Hp; cbn [mbind result_bind]; try done.
  apply deref_Ok in Hp.
  destruct (GetItems st (Parent it)) as [l| |] eqn:Hl; cbn [mbind result_bind]; try done.
  destruct (index_of ti l) as [[|x]|] eqn:Hx; [| |intros [= <-]; by left].
  - destruct (Parent it) as [| |par] eqn:HP; try (intros [= <-]; by left).
    intros (-> & it' & Hp' & HT)%activate_through_inv. simplify_eq.
    right. exists par. split; [done|]. split.
    + intros Hptr. destruct (Hptr ti _ Hp HT) as [_ Hh]. by rewrite HP in Hh.
    + intros Hcl. by apply (proj2 (proj1 (proj2 Hcl) ti _ Hp)).
  - destruct (l !! x) as [newItem|] eqn:Hnew; [|done].
    destruct (descend_last fuel st newItem) as [target| |] eqn:Hdesc;
      cbn [mbind result_bind]; try done.
    intros (-> & it' & Hp' & HT)%activate_through_inv. simplify_eq.
    right. exists target. split; [done|]. split.
    + intros Hptr. destruct (Hptr ti _ Hp HT) as [_ Hh].
      eapply descend_last_reachable; [done|].
      eapply holder_items_reachable; [done..|]. by eapply list_elem_of_lookup_2.
    + intros _. by eapply descend_last_allocated.
Qed.

Lemma moved_tree_inv st st' : moved st st' → tree_inv st → tree_inv st'.
Proof.
  intros [->|(q & -> & Hq & _)] Hinv; [done|].
  apply tree_inv_set_ActiveItem; [done|]. apply Hq, Hinv.
Qed.

Lemma children_preserved_lookup st st' q ita :
  (∀ q, Children <$> heap st' !! q = Children <$> heap st !! q) →
  heap st !! q = Some ita →
  ∃ ita', heap st' !! q = Some ita' ∧ Children ita' = Children ita.
Proof.
  intros HC Hq. specialize (HC q). rewrite Hq in HC.
  destruct (heap st' !! q) as [ita'|]; [|done].
  exists ita'. split; [done|].
  change (Some (Children ita') = Some (Children ita)) in HC. congruence.
Qed.

(** What the loop of [Tree.AddChildren] over the new items changes. *)
Lemma adopt_into_tree_frame i : ∀ st st',
  adopt_into_tree i st = Ok st' →
  ActiveItem st' = ActiveItem st ∧ Items st' = Items st ∧
  (∀ q, Children <$> heap st' !! q = Children <$> heap st !! q) ∧
  (∀ q it', heap st' !! q = Some it' →
            (q ∈ i ∧ Parent it' = HTree ∧ ParentTree it' = TheTree)
            ∨ heap st !! q = Some it').
Proof.
  induction i as [|item rest IH]; intros st st'.
  - intros [= <-]. repeat split; try done. by right.
  - cbn [adopt_into_tree].
    destruct (deref st item) as [c| |] eqn:Hc; cbn [mbind result_bind]; try done.
    apply deref_Ok in Hc. intros Hrest.
    destruct (IH _ _ Hrest) as (HA & HI & HC & HP).
    split; [done|]. split; [done|]. split.
    + intros q. rewrite HC. cbn. destruct (decide (item = q)) as [<-|Hne].
      * by rewrite lookup_insert_eq, Hc.
      * by rewrite lookup_insert_ne.
    + intros q it' Hq. destruct (HP q it' Hq) as [(Hin & H1 & H2)|Hq1].
      * left. split; [apply elem_of_cons; by right|done].
      * cbn in Hq1. destruct (decide (item = q)) as [<-|Hne].
        -- rewrite lookup_insert_eq in Hq1. simplify_eq. left. split; [apply list_elem_of_here|done].
        -- rewrite lookup_insert_ne in Hq1 by done. by right.
Qed.

Lemma adopt_into_tree_total i : ∀ st,
  Forall (allocated st) i → ∃ st', adopt_into_tree i st = Ok st'.
Proof.
  induction i as [|item rest IH]; intros st Hall; [by eexists|].
  apply Forall_cons in Hall as [[c Hc] Hall].
  cbn [adopt_into_tree]. rewrite (deref_Some _ _ _ Hc). cbn [mbind result_bind].
  apply IH. eapply Forall_impl; [exact Hall|].
  intros q [x Hq]. unfold allocated. cbn.
  destruct (decide (item = q)) as [<-|Hne].
  - rewrite lookup_insert_eq. by eexists.
  - rewrite lookup_insert_ne by done. by eexists.
Qed.

Lemma Tree_AddChildren_tree_inv i st st' :
  Tree_AddChildren i st = Ok st' → tree_inv st → tree_inv st'.
Proof.
  destruct i as [|x i']; [by intros [= <-]|].
  unfold Tree_AddChildren. set (i := x :: i'). intros Hadopt [Hact Hptr].
  apply adopt_into_tree_frame in Hadopt as (HA & HI & HC & HP).
  assert (Items st' = Items st ++ i) as HI'.
  { rewrite HI. by destruct (ActiveItem (set_Items (Items st ++ i) st)). }
  assert (∀ q, Children <$> heap st' !! q = Children <$> heap st !! q) as HC'.
  { intros q. rewrite HC. by destruct (ActiveItem (set_Items (Items st ++ i) st)). }
  assert (∀ p, reachable st p → reachable st' p) as Hmono.
  { intros p. apply reachable_mono.
    - rewrite HI'. intros z Hz. apply elem_of_app. by left.
    - intros q ita Hq.
      destruct (children_preserved_lookup _ _ _ _ HC' Hq) as (ita' & Hq' & Heq).
      exists ita'. by rewrite Heq. }
  split.
  - unfold active_item_sound. rewrite HA.
    unfold active_item_sound in Hact. cbn.
    destruct (ActiveItem st) as [a|] eqn:Ha; cbn; [rewrite Ha; by apply Hmono|].
    rewrite Hact. cbn. apply reachable_top. rewrite HI', Hact. apply list_elem_of_here.
  - intros p it' Hp HT. destruct (HP p it' Hp) as [(Hin & H1 & H2)|Hold].
    + split; [|by rewrite H1]. apply reachable_top. rewrite HI'.
      apply elem_of_app. by right.
    + assert (heap st !! p = Some it') as Hold'
        by by destruct (ActiveItem (set_Items (Items st ++ i) st)).
      destruct (Hptr p it' Hold' HT) as [Hr Hh]. split; [by apply Hmono|].
      destruct (Parent it'); cbn in *; try done. by apply Hmono.
Qed.

(** What the loop of [TreeItem.AddChildren] over the new children changes;
    [t0] is the [ParentTree] of the receiver, which the loop does not change. *)
Lemma adopt_into_item_frame ti t0 children : ∀ st st',
  adopt_into_item ti children st = Ok st' →
  ParentTree <$> heap st !! ti = Some t0 →
  ActiveItem st' = ActiveItem st ∧ Items st' = Items st ∧
  (∀ q, Children <$> heap st' !! q = Children <$> heap st !! q) ∧
  (∀ q it', heap st' !! q = Some it' →
            (q ∈ children ∧ Parent it' = HItem ti ∧ ParentTree it' = t0)
            ∨ heap st !! q = Some it').
Proof.
  induction children as [|child rest IH]; intros st st'.
  - intros [= <-] _. repeat split; try done. by right.
  - cbn [adopt_into_item].
    destruct (deref st child) as [c| |] eqn:Hc; cbn [mbind result_bind]; try done.
    apply deref_Ok in Hc.
    set (st1 := store child (with_Parent (HItem ti) (ParentTree c) c) st).
    destruct (deref st1 ti) as [it| |] eqn:Hit; cbn [mbind result_bind]; try done.
    apply deref_Ok in Hit.
    assert (heap st1 !! child = Some (with_Parent (HItem ti) (ParentTree c) c)) as Hc1
      by (cbn; apply lookup_insert_eq).
    rewrite (deref_Some _ _ _ Hc1). cbn [mbind result_bind].
    intros Hrest Ht0.
    assert (ParentTree it = t0) as Hpt.
    { cbn in Hit. destruct (decide (child = ti)) as [->|Hne].
      - rewrite lookup_insert_eq in Hit. rewrite Hc in Ht0. cbn in Ht0. by simplify_eq.
      - rewrite lookup_insert_ne in Hit by done. rewrite Hit in Ht0. cbn in Ht0. by simplify_eq. }
    rewrite Hpt in Hrest. unfold st1 in Hrest. rewrite store_store in Hrest.
    cbn [Parent with_Parent] in Hrest.
    set (c2 := with_Parent (HItem ti) t0 c) in *.
    destruct (IH _ _ Hrest) as (HA & HI & HC & HP).
    { cbn. destruct (decide (child = ti)) as [->|Hne].
      - by rewrite lookup_insert_eq.
      - by rewrite lookup_insert_ne. }
    split; [done|]. split; [done|]. split.
    + intros q. rewrite HC. cbn. destruct (decide (child = q)) as [<-|Hne].
      * by rewrite lookup_insert_eq, Hc.
      * by rewrite lookup_insert_ne.
    + intros q it' Hq. destruct (HP q it' Hq) as [(Hin & H1 & H2)|Hq1].
      * left. split; [apply elem_of_cons; by right|done].
      * cbn in Hq1. destruct (decide (child = q)) as [<-|Hne].
        -- rewrite lookup_insert_eq in Hq1. simplify_eq. left. split; [apply list_elem_of_here|done].
        -- rewrite lookup_insert_ne in Hq1 by done. by right.
Qed.

Lemma TreeItem_AddChildren_tree_inv ti children st st' :
  TreeItem_AddChildren ti children st = Ok st' → tree_inv st → tree_inv st'.
Proof.
  unfold TreeItem_AddChildren.
  destruct (deref st ti) as [it| |] eqn:Hit; cbn [mbind result_bind]; try done.
  apply deref_Ok in Hit.
  set (st1 := store ti (with_Children (Children it ++ children) it) st).
  assert (heap st1 !! ti = Some (with_Children (Children it ++ children) it)) as Hit1
    by (cbn; apply lookup_insert_eq).
  rewrite (deref_Some _ _ _ Hit1). cbn [mbind result_bind].
  unfold st1. rewrite store_store.
  set (it2 := with_CanHaveChildren true (with_Children (Children it ++ children) it)).
  set (st2 := store ti it2 st).
  intros Hadopt [Hact Hptr].
  apply (adopt_into_item_frame ti (ParentTree it)) in Hadopt as (HA & HI & HC & HP);
    [|by (cbn; rewrite lookup_insert_eq)].
  assert (∀ q ita, heap st !! q = Some ita →
            ∃ ita', heap st' !! q = Some ita' ∧ Children ita ⊆ Children ita') as Hgrow.
  { intros q ita Hq.
    assert (∃ ita2, heap st2 !! q = Some ita2 ∧ Children ita ⊆ Children ita2)
      as (ita2 & Hq2 & Hsub).
    { cbn. destruct (decide (ti = q)) as [<-|Hne].
      - rewrite lookup_insert_eq. exists it2. split; [done|]. simplify_eq. cbn.
        intros z Hz. apply elem_of_app. by left.
      - rewrite lookup_insert_ne by done. by exists ita. }
    destruct (children_preserved_lookup _ _ _ _ HC Hq2) as (ita' & Hq' & Heq).
    exists ita'. by rewrite Heq. }
  assert (∀ p, reachable st p → reachable st' p) as Hmono.
  { intros p. apply reachable_mono; [by rewrite HI|done]. }
  split.
  - unfold active_item_sound in *. rewrite HA, HI. cbn.
    destruct (ActiveItem st); [by apply Hmono|done].
  - intros p it' Hp HT. destruct (HP p it' Hp) as [(Hin & H1 & H2)|Hold].
    + assert (ParentTree it = TheTree) as HTti by congruence.
      destruct (Hptr ti it Hit HTti) as [Hrti _]. apply Hmono in Hrti.
      split; [|by rewrite H1].
      destruct (children_preserved_lookup st2 st' ti it2 HC) as (it2' & Hti' & Heq);
        [by (cbn; rewrite lookup_insert_eq)|].
      eapply reachable_child; [exact Hrti|exact Hti'|].
      rewrite Heq. cbn. apply elem_of_app. by right.
    + cbn in Hold. destruct (decide (ti = p)) as [<-|Hne].
      * rewrite lookup_insert_eq in Hold. injection Hold as <-.
        destruct (Hptr ti it Hit HT) as [Hr Hh]. split; [by apply Hmono|].
        change (Parent it2) with (Parent it).
        destruct (Parent it); cbn in *; try done. by apply Hmono.
      * rewrite lookup_insert_ne in Hold by done.
        destruct (Hptr p it' Hold HT) as [Hr Hh]. split; [by apply Hmono|].
        destruct (Parent it'); cbn in *; try done. by apply Hmono.
Qed.

Lemma fresh_not_allocated st : heap st !! fresh (dom (heap st)) = None.
Proof. apply not_elem_of_dom, is_fresh. Qed.

Lemma NewItem_tree_inv name icon can children openFunc closeFunc st :
  tree_inv st → tree_inv (NewItem name icon can children openFunc closeFunc st).2.
Proof.
  intros [Hact Hptr]. cbn [NewItem snd].
  set (p := fresh (dom (heap st))).
  set (it := mkTreeItem _ _ _ _ _ _ _ _ _ _).
  pose proof (fresh_not_allocated st) as Hfresh. fold p in Hfresh.
  assert (∀ q, reachable st q → reachable (store p it st) q) as Hmono.
  { intros q. apply reachable_mono; [done|].
    intros a ita Ha. exists ita. split; [|done]. cbn.
    rewrite lookup_insert_ne; [done|]. intros ->. congruence. }
  split.
  - unfold active_item_sound in *. cbn.
    destruct (ActiveItem st); [by apply Hmono|done].
  - intros q it' Hq HT. cbn in Hq. destruct (decide (p = q)) as [<-|Hne].
    + rewrite lookup_insert_eq in Hq. by simplify_eq.
    + rewrite lookup_insert_ne in Hq by done.
      destruct (Hptr q it' Hq HT) as [Hr Hh]. split; [by apply Hmono|].
      destruct (Parent it'); cbn in *; try done. by apply Hmono.
Qed.

Lemma same_links_refl st : same_links st st.
Proof. by repeat split. Qed.

Lemma ToggleChildren_same_links ti st st' calls :
  ToggleChildren ti st = Ok (st', calls) → same_links st st'.
Proof.
  unfold ToggleChildren.
  destruct (deref st ti) as [it| |] eqn:Hit; cbn [mbind result_bind]; try done.
  apply deref_Ok in Hit.
  destruct (CanHaveChildren it); [|intros [= <- _]; apply same_links_refl].
  intros Hres.
  assert (st' = store ti (with_Open (negb (Open it)) it) st) as ->.
  { cbn in Hres. by repeat case_match; simplify_eq. }
  by eapply same_links_store.
Qed.

Lemma OpenChildren_same_links ti st st' : OpenChildren ti st = Ok st' → same_links st st'.
Proof.
  unfold OpenChildren.
  destruct (deref st ti) as [it| |] eqn:Hit; cbn [mbind result_bind]; try done.
  apply deref_Ok in Hit. intros [= <-]. by eapply same_links_store.
Qed.

Lemma CloseChildren_same_links ti st st' : CloseChildren ti st = Ok st' → same_links st st'.
Proof.
  unfold CloseChildren.
  destruct (deref st ti) as [it| |] eqn:Hit; cbn [mbind result_bind]; try done.
  apply deref_Ok in Hit. intros [= <-]. by eapply same_links_store.
Qed.

(** ** Rendering writes [indent] fields only *)

Section RenderingFrame.
Context `{Presentation}.

Lemma kids_loop_cons scroll ti bottomline item rest topline kids st :
  kids_loop scroll ti bottomline (item :: rest) topline kids st =
    (c ← deref st item;
     me ← deref st ti;
     '(st2, topline', tmps) ← scroll item topline (store item (with_indent (indent me + 1) c) st);
     if (bottomline <=? topline')%Z then Ok (st2, topline', kids ++ [tmps])
     else kids_loop scroll ti bottomline rest topline' (kids ++ [tmps]) st2).
Proof. reflexivity. Qed.

Lemma kids_loop_same_but_indent scroll ti bottomline :
  (∀ item t st st' t' s, scroll item t st = Ok (st', t', s) → same_but_indent st st') →
  ∀ items t kids st st' t' kids',
    kids_loop scroll ti bottomline items t kids st = Ok (st', t', kids') →
    same_but_indent st st'.
Proof.
  intros Hscroll. induction items as [|item rest IH]; intros t kids st st' t' kids'.
  - intros [= <- _ _]. apply same_but_indent_refl.
  - rewrite kids_loop_cons.
    destruct (deref st item) as [c| |] eqn:Hc; cbn [mbind result_bind]; try done.
    apply deref_Ok in Hc.
    destruct (deref st ti) as [me| |] eqn:Hme; cbn [mbind result_bind]; try done.
    destruct (scroll item t _) as [[[st2 t2] tmps]| |] eqn:Hs; cbn [mbind result_bind];
      try done.
    apply Hscroll in Hs.
    assert (same_but_indent st st2) as Hs2.
    { eapply same_but_indent_trans; [|exact Hs]. by apply same_but_indent_store. }
    destruct (bottomline <=? t2)%Z.
    + by intros [= <- _ _].
    + intros Hrest. eapply same_but_indent_trans; [exact Hs2|]. by eapply IH.
Qed.

Lemma ScrollView_unfold fuel ti topline bottomline st :
  ScrollView (S fuel) ti topline bottomline st =
    (it ← deref st ti;
     match ParentTree it with
     | NilTree => Panicked NilDereference
     | TheTree =>
         let s :=
           if negb (topline <? 0)%Z then
             (if decide (ActiveItem st = Some ti) then focusedStyle (label it)
              else unfocusedStyle (label it))
           else prefix it in
         if (bottomline <? topline + 1)%Z then Ok (st, (topline + 1)%Z, "")
         else if (0 <? length (Children it))%nat && Open it then
           '(st', topline', kids) ←
             kids_loop (fun item topline st => ScrollView fuel item topline bottomline st)
                       ti bottomline (Children it) (topline + 1)%Z [] st;
           Ok (st', topline', JoinVertical (s :: kids))
         else Ok (st, (topline + 1)%Z, s)
     end).
Proof. reflexivity. Qed.

Lemma ScrollView_same_but_indent fuel : ∀ ti topline bottomline st st' t' s,
  ScrollView fuel ti topline bottomline st = Ok (st', t', s) → same_but_indent st st'.
Proof.
  induction fuel as [|fuel IH]; intros ti topline bottomline st st' t' s; [done|].
  rewrite ScrollView_unfold.
  destruct (deref st ti) as [it| |] eqn:Hit; cbn [mbind result_bind]; try done.
  destruct (ParentTree it); [done|]. cbv zeta.
  destruct (bottomline <? topline + 1)%Z; [intros [= <- _ _]; apply same_but_indent_refl|].
  destruct ((0 <? length (Children it))%nat && Open it);
    [|intros [= <- _ _]; apply same_but_indent_refl].
  destruct (kids_loop _ ti bottomline (Children it) (topline + 1)%Z [] st)
    as [[[st2 t2] kids]| |] eqn:Hk; cbn [mbind result_bind]; try done.
  intros [= <- _ _].
  eapply kids_loop_same_but_indent; [|exact Hk].
  intros item t st0 st0' t0' s0. apply IH.
Qed.

Lemma View_loop_same_but_indent fuel items : ∀ topline views st st' t' views',
  View_loop fuel items topline views st = Ok (st', t', views') → same_but_indent st st'.
Proof.
  induction items as [|item rest IH]; intros topline views st st' t' views'.
  - intros [= <- _ _]. apply same_but_indent_refl.
  - cbn [View_loop].
    destruct (deref st item) as [c| |] eqn:Hc; cbn [mbind result_bind]; try done.
    apply deref_Ok in Hc.
    destruct (ScrollView fuel item topline _ _) as [[[st2 t2] v]| |] eqn:Hs;
      cbn [mbind result_bind]; try done.
    apply ScrollView_same_but_indent in Hs. intros Hrest.
    eapply same_but_indent_trans; [by apply same_but_indent_store|].
    eapply same_but_indent_trans; [exact Hs|]. by eapply IH.
Qed.

Lemma Tree_View_same_but_indent fuel st st' s :
  Tree_View fuel st = Ok (st', s) → same_but_indent st st'.
Proof.
  unfold Tree_View, View_rows.
  destruct (initialized st); [|intros [= <- _]; apply same_but_indent_refl].
  destruct (View_loop fuel (Items st) (TopLine st) [] st) as [[[st2 t2] views]| |] eqn:Hv;
    cbn [mbind result_bind]; try done.
  intros [= <- _]. by eapply View_loop_same_but_indent.
Qed.

End RenderingFrame.

(** ** Scripts of operations *)

Lemma quiet_Ok r st' calls : quiet r = Ok (st', calls) → r = Ok st' ∧ calls = [].
Proof. unfold quiet. destruct r; cbn; [|done..]. by intros [= <- <-]. Qed.

Lemma Tree_SelectNext_moved fuel st st' : Tree_SelectNext fuel st = Ok st' → moved st st'.
Proof.
  unfold Tree_SelectNext, TreeItem_SelectNext.
  destruct (ActiveItem st); [apply SelectNext_loop_moved|intros [= <-]; by left].
Qed.

Lemma Tree_SelectPrevious_moved fuel st st' :
  Tree_SelectPrevious fuel st = Ok st' → moved st st'.
Proof.
  unfold Tree_SelectPrevious.
  destruct (ActiveItem st); [apply TreeItem_SelectPrevious_moved|intros [= <-]; by left].
Qed.

Lemma ToggleChild_same_links st st' calls :
  ToggleChild st = Ok (st', calls) → same_links st st'.
Proof.
  unfold ToggleChild.
  destruct (ActiveItem st); [apply ToggleChildren_same_links|].
  intros [= <- _]. apply same_links_refl.
Qed.

Lemma Tree_Update_effect fuel msg st st' calls :
  Tree_Update fuel msg st = Ok (st', calls) → moved st st' ∨ same_links st st'.
Proof.
  destruct msg as [w h|key|]; cbn [Tree_Update].
  - intros [= <- _]. right. by repeat split.
  - repeat case_decide.
    + destruct (Tree_SelectPrevious fuel st) as [st1| |] eqn:Hs; cbn [mbind result_bind];
        try done. intros [= <- _]. left. by eapply Tree_SelectPrevious_moved.
    + destruct (Tree_SelectNext fuel st) as [st1| |] eqn:Hs; cbn [mbind result_bind];
        try done. intros [= <- _]. left. by eapply Tree_SelectNext_moved.
    + intros Ht. right. by eapply ToggleChild_same_links.
    + intros [= <- _]. right. apply same_links_refl.
  - intros [= <- _]. right. apply same_links_refl.
Qed.

Section ScriptInvariants.
Context `{Presentation}.

(** Every operation but the two [Refresh] keeps the invariant. *)
Lemma exec_tree_inv fuel op st st' calls :
  is_refresh op = false → exec fuel op st = Ok (st', calls) →
  tree_inv st → tree_inv st'.
Proof.
  intros Hop Hexec Hinv. destruct op; cbn [exec] in Hexec; try done.
  - injection Hexec as <- _. by apply NewItem_tree_inv.
  - apply quiet_Ok in Hexec as [Hexec _]. by eapply Tree_AddChildren_tree_inv.
  - apply quiet_Ok in Hexec as [Hexec _]. by eapply TreeItem_AddChildren_tree_inv.
  - apply Tree_Update_effect in Hexec as [Hm|Hs];
      [by eapply moved_tree_inv|by eapply tree_inv_same_links].
  - apply quiet_Ok in Hexec as [Hexec _].
    eapply moved_tree_inv; [|done]. by eapply Tree_SelectPrevious_moved.
  - apply quiet_Ok in Hexec as [Hexec _].
    eapply moved_tree_inv; [|done]. by eapply Tree_SelectNext_moved.
  - eapply tree_inv_same_links; [|done]. by eapply ToggleChild_same_links.
  - apply quiet_Ok in Hexec as [Hexec _].
    eapply moved_tree_inv; [|done]. by eapply TreeItem_SelectPrevious_moved.
  - apply quiet_Ok in Hexec as [Hexec _].
    eapply moved_tree_inv; [|done]. by eapply SelectNext_loop_moved.
  - eapply tree_inv_same_links; [|done]. by eapply ToggleChildren_same_links.
  - apply quiet_Ok in Hexec as [Hexec _].
    eapply tree_inv_same_links; [|done]. by eapply OpenChildren_same_links.
  - apply quiet_Ok in Hexec as [Hexec _].
    eapply tree_inv_same_links; [|done]. by eapply CloseChildren_same_links.
  - destruct (Tree_View fuel st) as [[st1 s]| |] eqn:Hv; cbn [mbind result_bind] in Hexec;
      try done. injection Hexec as <- _.
    eapply tree_inv_same_links; [|done].
    by eapply same_but_indent_same_links, Tree_View_same_but_indent.
Qed.

Lemma run_tree_inv fuel ops : ∀ st st' calls,
  refresh_free ops → run fuel ops st = Ok (st', calls) →
  tree_inv st → tree_inv st'.
Proof.
  induction ops as [|op rest IH]; intros st st' calls Hfree.
  - by intros [= <- _].
  - cbn [run]. unfold refresh_free in Hfree. cbn in Hfree.
    apply andb_true_iff in Hfree as [Hop Hrest]. apply negb_true_iff in Hop.
    destruct (exec fuel op st) as [[st1 calls1]| |] eqn:Hexec; cbn [mbind result_bind];
      try done.
    destruct (run fuel rest st1) as [[st2 calls2]| |] eqn:Hrun; cbn [mbind result_bind];
      try done.
    intros [= <- _] Hinv. eapply IH; [exact Hrest|exact Hrun|].
    by eapply exec_tree_inv.
Qed.

Lemma tree_inv_New : tree_inv New.
Proof.
  split; [done|]. intros p it Hp.
  change (heap New) with (∅ : gmap ptr TreeItem) in Hp. by rewrite lookup_empty in Hp.
Qed.

End ScriptInvariants.

Lemma reachable_empty st p : Items st = [] → ¬ reachable st p.
Proof.
  intros HI. induction 1 as [p Hp|a ita p _ IH _ _]; [|done].
  rewrite HI in Hp. by apply elem_of_nil in Hp.
Qed.



(** ** A non-empty tree has an active item *)

Lemma Tree_AddChildren_fields i st st' :
  Tree_AddChildren i st = Ok st' →
  Items st' = Items st ++ i ∧
  (i = [] → ActiveItem st' = ActiveItem st) ∧
  (i ≠ [] → ActiveItem st' = match ActiveItem st with
                              | Some a => Some a
                              | None => head (Items st ++ i)
                              end).
Proof.
  destruct i as [|x i']; [intros [= <-]; by rewrite app_nil_r|].
  unfold Tree_AddChildren. set (i := x :: i'). intros Hadopt.
  apply adopt_into_tree_frame in Hadopt as (HA & HI & _ & _).
  rewrite HA, HI. cbn [ActiveItem Items set_Items].
  split; [by destruct (ActiveItem st)|].
  split; [intros Hi; unfold i in Hi; discriminate|]. intros _.
  destruct (ActiveItem st) as [a|] eqn:Ha; cbn; [done|]. by rewrite head_lookup.
Qed.





Section NonEmptyTree.
Context `{Presentation}.




End NonEmptyTree.

(** ** Round trips on a tree without open empty folders *)

Lemma select_next_target_functional st p r1 r2 :
  select_next_target st p r1 → select_next_target st p r2 → r1 = r2.
Proof.
  intros (it1 & Hp1 & H1) (it2 & Hp2 & H2). simplify_eq.
  destruct (expanded it1); [congruence|]. by eapply next_of_ancestor_functional.
Qed.

Lemma attached_reachable st p : attached st p → reachable st p.
Proof.
  induction 1 as [p it Hp HP HT Hin|p it a ita Hp HP HT Ha Hin _ IH].
  - by apply reachable_top.
  - by eapply reachable_child.
Qed.

Lemma visible_reachable st p : visible st p → reachable st p.
Proof.
  induction 1 as [p Hin|a ita p _ IH Ha _ Hin].
  - by apply reachable_top.
  - by eapply reachable_child.
Qed.

(** In a valid tree a reachable node sits in the list of its holder. *)
Lemma node_context st p :
  valid st → reachable st p →
  ∃ it l, heap st !! p = Some it ∧ ParentTree it = TheTree ∧
          items_of st (Parent it) = Some l ∧ p ∈ l ∧
          listed_under st (Parent it) l ∧ holder_reachable st (Parent it).
Proof.
  intros [Htop Hvalid] Hr. destruct Hr as [p Hin|a ita p Hra Ha Hin].
  - destruct (proj2 Htop p Hin) as (it & Hp & HP & HT).
    exists it, (Items st). rewrite HP.
    split; [done|]. split; [done|]. split; [done|]. split; [done|]. by split.
  - destruct (Hvalid a ita Hra Ha) as [Hlisted _].
    destruct (proj2 Hlisted p Hin) as (it & Hp & HP & HT).
    exists it, (Children ita). rewrite HP. cbn. rewrite Ha.
    split; [done|]. split; [done|]. split; [done|]. split; [done|]. by split.
Qed.

Lemma valid_attached st p : valid st → reachable st p → attached st p.
Proof.
  intros Hvalid. induction 1 as [p Hin|a ita p Hra IH Ha Hin].
  - destruct (proj2 (proj1 Hvalid) p Hin) as (it & Hp & HP & HT).
    by eapply attached_top.
  - destruct (proj2 Hvalid a ita Hra Ha) as [Hlisted _].
    destruct (proj2 Hlisted p Hin) as (it & Hp & HP & HT).
    by eapply attached_child.
Qed.

(** The parent of a visible node of a valid tree is visible and open. *)
Lemma visible_parent st p it a :
  valid st → visible st p → heap st !! p = Some it → Parent it = HItem a →
  visible st a ∧ ∃ ita, heap st !! a = Some ita ∧ Open ita = true ∧ p ∈ Children ita.
Proof.
  intros [Htop Hvalid] Hv Hp HP. destruct Hv as [p Hin|a' ita' p Hva Ha Hopen Hin].
  - destruct (proj2 Htop p Hin) as (it' & Hp' & HP' & _). congruence.
  - destruct (Hvalid a' ita' (visible_reachable _ _ Hva) Ha) as [Hlisted _].
    destruct (proj2 Hlisted p Hin) as (it' & Hp' & HP' & _).
    assert (a' = a) as -> by congruence. split; [done|]. by exists ita'.
Qed.

Lemma index_of_NoDup l i p : NoDup l → l !! i = Some p → index_of p l = Some i.
Proof.
  intros Hnd Hi.
  destruct (index_of_elem p l) as [j Hj]; [by eapply list_elem_of_lookup_2|].
  rewrite Hj. f_equal. eapply NoDup_lookup; [done| |done]. by apply index_of_lookup.
Qed.

Lemma next_previous_sibling l p m :
  NoDup l → next_sibling l p = Some m → previous_sibling l m = Some p.
Proof.
  intros Hnd. unfold next_sibling, previous_sibling.
  destruct (index_of p l) as [i|] eqn:Hi; cbn; [|done]. intros Hm.
  rewrite (index_of_NoDup _ _ _ Hnd Hm). cbn. by apply index_of_lookup.
Qed.

Lemma previous_next_sibling l x q n :
  NoDup l → index_of n l = Some (S x) → l !! x = Some q → next_sibling l q = Some n.
Proof.
  intros Hnd Hn Hq. unfold next_sibling.
  rewrite (index_of_NoDup _ _ _ Hnd Hq). cbn. by apply index_of_lookup.
Qed.

(** A listed node without next sibling is the last of the list. *)
Lemma next_sibling_None_last l p : p ∈ l → next_sibling l p = None → last l = Some p.
Proof.
  intros Hin Hnone. destruct (index_of_elem p l Hin) as [i Hi].
  unfold next_sibling in Hnone. rewrite Hi in Hnone. cbn in Hnone.
  apply index_of_lookup in Hi. apply lookup_ge_None in Hnone.
  apply lookup_lt_Some in Hi as Hlt. rewrite last_lookup.
  by replace (Nat.pred (length l)) with i by lia.
Qed.

Lemma set_ActiveItem_twice a b st :
  set_ActiveItem a (set_ActiveItem b st) = set_ActiveItem a st.
Proof. done. Qed.

Lemma set_ActiveItem_same st a : ActiveItem st = a → set_ActiveItem a st = st.
Proof. intros <-. by destruct st. Qed.

Lemma deepest_last_set_ActiveItem st a q r :
  deepest_last st q r → deepest_last (set_ActiveItem a st) q r.
Proof.
  induction 1 as [p it Hp Hstop|p it kid r Hp Hgo Hlast _ IH].
  - by eapply deepest_stop.
  - by eapply deepest_step.
Qed.

Lemma attached_set_ActiveItem st a p : attached st p → attached (set_ActiveItem a st) p.
Proof.
  induction 1 as [p it Hp HP HT Hin|p it b itb Hp HP HT Hb Hin _ IH].
  - by eapply attached_top.
  - by eapply attached_child.
Qed.

Lemma next_of_ancestor_set_ActiveItem st a p r :
  next_of_ancestor st p r → next_of_ancestor (set_ActiveItem a st) p r.
Proof.
  induction 1 as [p it l q Hp Hl Hq|p it Hp HP Hq|p it b l r Hp HP Hl Hq _ IH].
  - by eapply next_here.
  - by eapply next_none.
  - by eapply next_climb.
Qed.

Lemma not_expanded_stops st p it :
  valid st → reachable st p → heap st !! p = Some it →
  CanHaveChildren it && Open it = false → expanded it = false.
Proof.
  intros [_ Hvalid] Hr Hp Hstop. destruct (Hvalid p it Hr Hp) as [_ Hcan].
  unfold expanded. destruct (Open it); [|done]. cbn.
  apply bool_decide_eq_false. intros Hne. rewrite (Hcan Hne) in Hstop. done.
Qed.

Lemma next_sibling_elem l p m : next_sibling l p = Some m → m ∈ l.
Proof.
  unfold next_sibling. destruct (index_of p l); cbn; [|done].
  apply list_elem_of_lookup_2.
Qed.

(** Where the climb of select-next from [p] arrives at [m], the previous
    sibling of [m] is an ancestor-or-self of [p] from which the descent
    through last children passes through [p]. *)
Lemma climb_back st m :
  valid st →
  ∀ p r, next_of_ancestor st p r → r = Some m → visible st p →
  ∃ itm l q, heap st !! m = Some itm ∧ ParentTree itm = TheTree ∧
             items_of st (Parent itm) = Some l ∧ previous_sibling l m = Some q ∧
             ∀ x, deepest_last st p x → deepest_last st q x.
Proof.
  intros Hvalid.
  induction 1 as [p it l q Hp Hl Hq|p it Hp HP Hq|p it a l r Hp HP Hl Hq Hr IH];
    intros Hrm Hvis; [|done|].
  - injection Hrm as ->.
    destruct (node_context _ _ Hvalid (visible_reachable _ _ Hvis))
      as (it' & l' & Hp' & _ & Hl' & Hin & [Hnd Hlisted] & _).
    assert (it' = it) as -> by congruence.
    assert (l' = l) as -> by congruence.
    destruct (Hlisted m (next_sibling_elem _ _ _ Hq)) as (itm & Hm & HPm & HTm).
    exists itm, l, p. rewrite HPm.
    split; [done|]. split; [done|]. split; [done|].
    split; [by apply next_previous_sibling|done].
  - destruct (visible_parent _ _ _ _ Hvalid Hvis Hp HP) as (Hva & ita & Ha & Hopen & Hin).
    destruct (IH Hrm Hva) as (itm & l0 & q & Hm & HTm & Hl0 & Hprev & Hdeep).
    exists itm, l0, q. repeat (split; [done|]).
    intros x Hx. apply Hdeep.
    rewrite HP in Hl. cbn in Hl. rewrite Ha in Hl. injection Hl as <-.
    destruct (proj2 Hvalid a ita (visible_reachable _ _ Hva) Ha) as [_ Hcan].
    eapply deepest_step; [exact Ha| |by apply next_sibling_None_last|exact Hx].
    rewrite Hopen, Hcan; [done|]. intros Hnil. rewrite Hnil in Hin.
    by apply elem_of_nil in Hin.
Qed.

(** On a valid tree in which no open folder is empty, [SelectNext] followed
    by [SelectPrevious] brings the active item back to the visible node it
    started from, whenever the first move goes somewhere. *)
Lemma next_then_previous_returns st n m :
  valid st → no_open_empty st →
  ActiveItem st = Some n → visible st n → select_next_target st n (Some m) →
  ∃ fuel0, ∀ fuel, (fuel0 ≤ fuel)%nat →
    (st1 ← Tree_SelectNext fuel st; Tree_SelectPrevious fuel st1) = Ok st.
Proof.
  intros Hvalid Hfull Hact Hvis Htarget.
  pose proof (visible_reachable _ _ Hvis) as Hreach.
  destruct (Tree_SelectNext_target st n Hact (valid_attached _ _ Hvalid Hreach))
    as (r & Hr & fuel1 & Hnext).
  rewrite (select_next_target_functional _ _ _ _ Hr Htarget) in Hnext. cbn in Hnext.
  set (st1 := set_ActiveItem (Some m) st) in *.
  assert (∃ fuel2, ∀ fuel, (fuel2 ≤ fuel)%nat → Tree_SelectPrevious fuel st1 = Ok st)
    as (fuel2 & Hprev).
  { destruct Htarget as (it & Hp & Htarget).
    destruct (expanded it) eqn:Hexp.
    - (* first child *)
      unfold expanded in Hexp. apply andb_true_iff in Hexp as [Hopen Hne].
      destruct (Children it) as [|c cs] eqn:Hc; [done|].
      assert (c = m) as -> by (cbn in Htarget; congruence).
      destruct (proj2 Hvalid n it Hreach Hp) as [[_ Hlisted] _].
      destruct (Hlisted m) as (itm & Hm & HPm & HTm); [rewrite Hc; apply list_elem_of_here|].
      exists 0%nat. intros fuel _.
      unfold Tree_SelectPrevious, TreeItem_SelectPrevious. cbn [ActiveItem st1 set_ActiveItem].
      rewrite (deref_Some st1 m itm Hm). cbn [mbind result_bind].
      rewrite HPm. cbn [GetItems]. rewrite (deref_Some st1 n it Hp). cbn [mbind result_bind].
      rewrite Hc, index_of_head.
      rewrite (activate_through_Ok st1 m itm n Hm HTm).
      unfold st1. by rewrite set_ActiveItem_twice, set_ActiveItem_same.
    - (* a sibling, of the node or of an ancestor *)
      destruct (climb_back st m Hvalid n _ Htarget eq_refl Hvis)
        as (itm & l & q & Hm & HTm & Hl & Hq & Hdeep).
      assert (deepest_last st q n) as Hqn.
      { apply Hdeep. eapply deepest_stop; [exact Hp|].
        destruct (CanHaveChildren it && Open it) eqn:Hgo; [|done].
        pose proof (Hfull n it Hreach Hp Hgo) as Hne.
        unfold expanded in Hexp. apply andb_true_iff in Hgo as [_ Hopen].
        rewrite Hopen in Hexp. cbn in Hexp. by apply bool_decide_eq_false in Hexp. }
      destruct (SelectPrevious_previous_sibling st1 m itm l q n eq_refl Hm HTm Hl Hq
                  (deepest_last_set_ActiveItem _ _ _ _ Hqn)) as (fuel2 & Hprev).
      exists fuel2. intros fuel Hf. rewrite (Hprev fuel Hf).
      unfold st1. by rewrite set_ActiveItem_twice, set_ActiveItem_same. }
  exists (fuel1 `max` fuel2)%nat. intros fuel Hf.
  rewrite Hnext by lia. cbn [mbind result_bind]. apply Hprev. lia.
Qed.

(** [Tree.SelectPrevious] from an attached active node returns and moves to
    the target of select-previous, when the descent it asks for exists. *)
Lemma Tree_SelectPrevious_target st n r :
  ActiveItem st = Some n → attached st n → select_previous_target st n r →
  ∃ fuel0, ∀ fuel, (fuel0 ≤ fuel)%nat →
    Tree_SelectPrevious fuel st = Ok (moved_to r st).
Proof.
  intros Hact Hatt (it & l & Hp & Hl & Htarget).
  destruct (attached_lookup _ _ Hatt) as (it' & Hp' & HT & _).
  assert (it' = it) as -> by congruence.
  destruct (index_of n l) as [[|x]|] eqn:Hx.
  - exists 0%nat. intros fuel _.
    unfold Tree_SelectPrevious, TreeItem_SelectPrevious. rewrite Hact.
    rewrite (deref_Some _ _ _ Hp). cbn [mbind result_bind].
    rewrite (GetItems_items_of _ _ _ Hl). cbn [mbind result_bind]. rewrite Hx.
    subst r. destruct (Parent it) as [| |a]; try done.
    by eapply activate_through_Ok.
  - destruct Htarget as (q & m & Hq & Hdeep & ->).
    eapply SelectPrevious_previous_sibling; try done.
    unfold previous_sibling. by rewrite Hx.
  - subst r. exists 0%nat. intros fuel _.
    unfold Tree_SelectPrevious, TreeItem_SelectPrevious. rewrite Hact.
    rewrite (deref_Some _ _ _ Hp). cbn [mbind result_bind].
    rewrite (GetItems_items_of _ _ _ Hl). cbn [mbind result_bind]. by rewrite Hx.
Qed.

(** From the end of a descent through last children, the climb of
    select-next leads where it leads from the start of the descent. *)
Lemma descent_then_climb st :
  valid st →
  ∀ q m, deepest_last st q m → reachable st q →
  ∀ t, next_of_ancestor st q t →
    reachable st m ∧ next_of_ancestor st m t ∧
    ∃ itm, heap st !! m = Some itm ∧ expanded itm = false.
Proof.
  intros Hvalid. induction 1 as [p it Hp Hstop|p it kid r Hp Hgo Hlast _ IH];
    intros Hr t Ht.
  - split; [done|]. split; [done|]. exists it. split; [done|].
    by eapply not_expanded_stops.
  - destruct (proj2 Hvalid p it Hr Hp) as [[Hnd Hlisted] _].
    pose proof (last_elem_of _ _ Hlast) as Hin.
    destruct (Hlisted kid Hin) as (itk & Hk & HPk & HTk).
    apply IH; [by eapply reachable_child|].
    eapply next_climb; [exact Hk|exact HPk| |by apply next_sibling_last|exact Ht].
    rewrite HPk. cbn. by rewrite Hp.
Qed.

(** On a valid tree, [SelectPrevious] followed by [SelectNext] brings the
    active item back to the visible node it started from, whenever the
    first move goes somewhere. *)
Lemma previous_then_next_returns st n m :
  valid st → ActiveItem st = Some n → visible st n →
  select_previous_target st n (Some m) →
  ∃ fuel0, ∀ fuel, (fuel0 ≤ fuel)%nat →
    (st1 ← Tree_SelectPrevious fuel st; Tree_SelectNext fuel st1) = Ok st.
Proof.
  intros Hvalid Hact Hvis Htarget.
  pose proof (visible_reachable _ _ Hvis) as Hreach.
  pose proof (valid_attached _ _ Hvalid Hreach) as Hatt.
  destruct (Tree_SelectPrevious_target st n _ Hact Hatt Htarget) as (fuel1 & Hprev).
  cbn [moved_to] in Hprev.
  set (st1 := set_ActiveItem (Some m) st) in *.
  assert (attached st m ∧ select_next_target st m (Some n)) as [Hattm Hback].
  { destruct Htarget as (it & l & Hp & Hl & Htarget).
    destruct (node_context _ _ Hvalid Hreach)
      as (it' & l' & Hp' & _ & Hl' & Hin & [Hnd Hlisted] & Hh).
    assert (it' = it) as -> by congruence.
    assert (l' = l) as -> by congruence.
    destruct (index_of n l) as [[|x]|] eqn:Hx; [| |done].
    - (* first child: the parent is open and [n] heads its list *)
      destruct (Parent it) as [| |a] eqn:HP; try done.
      assert (a = m) as -> by congruence.
      destruct (visible_parent _ _ _ _ Hvalid Hvis Hp HP)
        as (Hva & ita & Ha & Hopen & Hinn).
      split; [by apply valid_attached, visible_reachable|].
      exists ita. split; [done|].
      assert (Children ita = l) as Hc.
      { cbn in Hl. rewrite Ha in Hl. by injection Hl. }
      apply index_of_lookup in Hx.
      unfold expanded. rewrite Hopen, Hc. destruct l as [|c cs]; [done|].
      cbn in Hx. cbn. congruence.
    - (* previous sibling, then down its last children *)
      destruct Htarget as (q & m' & Hq & Hdeep & Hm). injection Hm as <-.
      assert (reachable st q) as Hrq.
      { eapply holder_items_reachable; [exact Hh|by apply GetItems_items_of|].
        by eapply list_elem_of_lookup_2. }
      destruct (Hlisted q) as (itq & Hitq & HPq & HTq); [by eapply list_elem_of_lookup_2|].
      assert (next_of_ancestor st q (Some n)) as Hqn.
      { eapply next_here; [exact Hitq|by rewrite HPq|].
        by eapply previous_next_sibling. }
      destruct (descent_then_climb st Hvalid q m Hdeep Hrq _ Hqn)
        as (Hrm & Hmn & itm & Hitm & Hexp).
      split; [by apply valid_attached|].
      exists itm. split; [done|]. by rewrite Hexp. }
  destruct (Tree_SelectNext_target st1 m eq_refl (attached_set_ActiveItem _ _ _ Hattm))
    as (r & Hr & fuel2 & Hnext).
  assert (r = Some n) as ->.
  { eapply select_next_target_functional; [exact Hr|].
    destruct Hback as (itm & Hitm & Hb). exists itm. split; [done|].
    revert Hb. destruct (expanded itm); [done|].
    apply next_of_ancestor_set_ActiveItem. }
  exists (fuel1 `max` fuel2)%nat. intros fuel Hf.
  rewrite Hprev by lia. cbn [mbind result_bind]. rewrite Hnext by lia.
  cbn [moved_to]. unfold st1. by rewrite set_ActiveItem_twice, set_ActiveItem_same.
Qed.

(** ** Further properties of navigation *)

Lemma descend_last_breaks st q :
  descent_breaks st q →
  ∃ fuel0, ∀ fuel, (fuel0 ≤ fuel)%nat →
    descend_last fuel st q = Panicked IndexOutOfRange.
Proof.
  induction 1 as [p it Hp Hgo Hnil|p it kid Hp Hgo Hlast _ (fuel0 & IH)].
  - exists 1%nat. intros [|fuel] Hf; [lia|].
    cbn. rewrite (deref_Some _ _ _ Hp). cbn. by rewrite Hgo, Hnil.
  - exists (S fuel0). intros [|fuel] Hf; [lia|].
    cbn. rewrite (deref_Some _ _ _ Hp). cbn. rewrite Hgo, Hlast. apply IH. lia.
Qed.

(** [SelectPrevious] panics with an index out of range whenever the active
    node has a previous sibling from which the descent through last children
    of open folders meets an open folder whose child list is empty. *)
Theorem SelectPrevious_panics_at_open_empty_folder (st : State) (n q : ptr)
    (it : TreeItem) (l : list ptr) :
  ActiveItem st = Some n → heap st !! n = Some it →
  items_of st (Parent it) = Some l → previous_sibling l n = Some q →
  descent_breaks st q →
  ∃ fuel0, ∀ fuel, (fuel0 ≤ fuel)%nat →
    Tree_SelectPrevious fuel st = Panicked IndexOutOfRange.
Proof.
  intros Hact Hp Hl Hq Hbreak.
  destruct (descend_last_breaks _ _ Hbreak) as (fuel0 & Hdesc).
  destruct (previous_sibling_index _ _ _ Hq) as (x & Hx & Hlx).
  exists fuel0. intros fuel Hf.
  unfold Tree_SelectPrevious, TreeItem_SelectPrevious. rewrite Hact.
  rewrite (deref_Some _ _ _ Hp). cbn [mbind result_bind].
  rewrite (GetItems_items_of _ _ _ Hl). cbn [mbind result_bind].
  by rewrite Hx, Hlx, (Hdesc fuel Hf).
Qed.

Lemma SelectPrevious_panics_at_open_empty_folder_witness :
  ∃ fuel0, ∀ fuel, (fuel0 ≤ fuel)%nat →
    Tree_SelectPrevious fuel empty_folder_at_b = Panicked IndexOutOfRange.
Proof.
  apply (SelectPrevious_panics_at_open_empty_folder empty_folder_at_b 1%nat 0%nat
           (mkTreeItem TheTree HTree "-" "B" [] false false None None 0) [0; 1]%nat).
  - reflexivity.
  - vm_compute. reflexivity.
  - reflexivity.
  - reflexivity.
  - eapply breaks_here; [vm_compute; reflexivity|reflexivity|reflexivity].
Defined.

(** [SelectPrevious] from an attached active node: it returns and moves to
    the deepest last open descendant of the previous sibling when there is
    one, to the parent when the node is the first child of a node, and
    nowhere when it is the first top-level node. *)
Theorem SelectPrevious_characterised (st : State) (n : ptr) (r : option ptr) :
  ActiveItem st = Some n → attached st n → select_previous_target st n r →
  ∃ fuel0, ∀ fuel, (fuel0 ≤ fuel)%nat →
    Tree_SelectPrevious fuel st = Ok (moved_to r st).
Proof. apply Tree_SelectPrevious_target. Qed.

Lemma SelectPrevious_characterised_witness :
  ∃ fuel0, ∀ fuel, (fuel0 ≤ fuel)%nat →
    Tree_SelectPrevious fuel nested_at_item2
    = Ok (moved_to (Some 2%nat) nested_at_item2).
Proof.
  apply (SelectPrevious_characterised nested_at_item2 3%nat).
  - reflexivity.
  - solve_attached.
  - eexists _, [0; 3]%nat. split; [vm_compute; reflexivity|]. split; [reflexivity|].
    exists 0%nat, 2%nat. split; [reflexivity|]. split; [|reflexivity].
    eapply deepest_step; [vm_compute; reflexivity|reflexivity|reflexivity|].
    eapply deepest_step; [vm_compute; reflexivity|reflexivity|reflexivity|].
    eapply deepest_stop; [vm_compute; reflexivity|reflexivity].
Defined.

(** Navigation only moves the active item: whatever [SelectNext] or
    [SelectPrevious] return differs from the state they got at most in
    [ActiveItem], and the item they activate is reachable when the pointers
    of the store are sound. *)
Theorem navigation_only_moves_active (fuel : nat) (st st' : State) :
  Tree_SelectNext fuel st = Ok st' ∨ Tree_SelectPrevious fuel st = Ok st' →
  moved st st'.
Proof.
  intros [Hn|Hp]; [by eapply Tree_SelectNext_moved|by eapply Tree_SelectPrevious_moved].
Qed.

Lemma navigation_only_moves_active_witness :
  moved nested_at_item1 (set_ActiveItem (Some 1%nat) nested_at_item1).
Proof.
  apply (navigation_only_moves_active 2 nested_at_item1). left. vm_compute. reflexivity.
Defined.

(** On a valid tree without open empty folders, [SelectNext] followed by
    [SelectPrevious] returns to the visible node it started from. *)
Theorem next_then_previous_round_trip (st : State) (n m : ptr) :
  valid st → no_open_empty st →
  ActiveItem st = Some n → visible st n → select_next_target st n (Some m) →
  ∃ fuel0, ∀ fuel, (fuel0 ≤ fuel)%nat →
    (st1 ← Tree_SelectNext fuel st; Tree_SelectPrevious fuel st1) = Ok st.
Proof. apply next_then_previous_returns. Qed.

(** On a valid tree, [SelectPrevious] followed by [SelectNext] returns to
    the visible node it started from. *)
Theorem previous_then_next_round_trip (st : State) (n m : ptr) :
  valid st → ActiveItem st = Some n → visible st n →
  select_previous_target st n (Some m) →
  ∃ fuel0, ∀ fuel, (fuel0 ≤ fuel)%nat →
    (st1 ← Tree_SelectPrevious fuel st; Tree_SelectNext fuel st1) = Ok st.
Proof. apply previous_then_next_returns. Qed.

Lemma no_open_emptyb_sound st : no_open_emptyb st = true → no_open_empty st.
Proof.
  unfold no_open_emptyb. intros Hall%bool_decide_eq_true p it _ Hp Hgo Hnil.
  specialize (Hall p it Hp). cbn in Hall. rewrite Hgo, Hnil in Hall.
  by rewrite bool_decide_eq_true_2 in Hall.
Qed.

Lemma next_then_previous_round_trip_witness :
  ∃ fuel0, ∀ fuel, (fuel0 ≤ fuel)%nat →
    (st1 ← Tree_SelectNext fuel nested_at_subsub1; Tree_SelectPrevious fuel st1)
    = Ok nested_at_subsub1.
Proof.
  apply (next_then_previous_round_trip nested_at_subsub1 2%nat 3%nat).
  - apply validb_sound. vm_compute. reflexivity.
  - apply no_open_emptyb_sound. vm_compute. reflexivity.
  - reflexivity.
  - eapply (visible_child _ 1%nat); [|vm_compute; reflexivity|reflexivity|solve_elem].
    eapply (visible_child _ 0%nat); [|vm_compute; reflexivity|reflexivity|solve_elem].
    apply visible_top. solve_elem.
  - eexists. split; [vm_compute; reflexivity|]. cbn.
    eapply next_climb; [vm_compute; reflexivity|reflexivity|vm_compute; reflexivity
                       |reflexivity|].
    eapply next_climb; [vm_compute; reflexivity|reflexivity|vm_compute; reflexivity
                       |reflexivity|].
    eapply next_here; [vm_compute; reflexivity|reflexivity|reflexivity].
Defined.

Lemma previous_then_next_round_trip_witness :
  ∃ fuel0, ∀ fuel, (fuel0 ≤ fuel)%nat →
    (st1 ← Tree_SelectPrevious fuel nested_at_item2; Tree_SelectNext fuel st1)
    = Ok nested_at_item2.
Proof.
  apply (previous_then_next_round_trip nested_at_item2 3%nat 2%nat).
  - apply validb_sound. vm_compute. reflexivity.
  - reflexivity.
  - apply visible_top. solve_elem.
  - eexists _, [0; 3]%nat. split; [vm_compute; reflexivity|]. split; [reflexivity|].
    exists 0%nat, 2%nat. split; [reflexivity|]. split; [|reflexivity].
    eapply deepest_step; [vm_compute; reflexivity|reflexivity|reflexivity|].
    eapply deepest_step; [vm_compute; reflexivity|reflexivity|reflexivity|].
    eapply deepest_stop; [vm_compute; reflexivity|reflexivity].
Defined.

(** ** Further properties of rendering *)

Section RenderingBounds.
Context `{Presentation}.

Lemma kids_loop_counter scroll ti bottomline :
  (∀ item t st st' t' s, scroll item t st = Ok (st', t', s) →
     (t + 1 ≤ t' ≤ Z.max (t + 1) (bottomline + 1))%Z) →
  ∀ items t kids st st' t' kids',
    (t ≤ bottomline)%Z →
    kids_loop scroll ti bottomline items t kids st = Ok (st', t', kids') →
    (t ≤ t' ≤ bottomline + 1)%Z.
Proof.
  intros Hscroll. induction items as [|item rest IH]; intros t kids st st' t' kids' Ht.
  - intros [= _ <- _]. lia.
  - rewrite kids_loop_cons.
    destruct (deref st item) as [c| |]; cbn [mbind result_bind]; try done.
    destruct (deref st ti) as [me| |]; cbn [mbind result_bind]; try done.
    destruct (scroll item t _) as [[[st2 t2] tmps]| |] eqn:Hs; cbn [mbind result_bind];
      try done.
    apply Hscroll in Hs.
    destruct (Z.leb_spec bottomline t2).
    + intros [= _ <- _]. lia.
    + intros Hrest. apply IH in Hrest; lia.
Qed.

(** A call of [ScrollView] counts its own row, and stops counting at most
    one past the bottom line. *)
Theorem ScrollView_counter_bounds (fuel : nat) (ti : ptr) (topline bottomline : Z)
    (st st' : State) (t' : Z) (s : string) :
  ScrollView fuel ti topline bottomline st = Ok (st', t', s) →
  (topline + 1 ≤ t' ≤ Z.max (topline + 1) (bottomline + 1))%Z.
Proof.
  revert ti topline st st' t' s.
  induction fuel as [|fuel IH]; intros ti topline st st' t' s; [done|].
  rewrite ScrollView_unfold.
  destruct (deref st ti) as [it| |]; cbn [mbind result_bind]; try done.
  destruct (ParentTree it); [done|]. cbv zeta.
  destruct (Z.ltb_spec bottomline (topline + 1)); [intros [= _ <- _]; lia|].
  destruct ((0 <? length (Children it))%nat && Open it); [|intros [= _ <- _]; lia].
  destruct (kids_loop _ ti bottomline (Children it) (topline + 1)%Z [] st)
    as [[[st2 t2] kids]| |] eqn:Hk; cbn [mbind result_bind]; try done.
  intros [= _ <- _].
  apply kids_loop_counter in Hk; [lia| |lia].
  intros item t st0 st0' t0' s0. apply IH.
Qed.

Lemma View_loop_counter fuel items : ∀ topline views st st' t' views',
  View_loop fuel items topline views st = Ok (st', t', views') →
  (topline + Z.of_nat (length items) ≤ t')%Z ∧
  (length views' ≤ length views + length items)%nat.
Proof.
  induction items as [|item rest IH]; intros topline views st st' t' views'.
  - intros [= _ <- <-]. cbn. lia.
  - cbn [View_loop].
    destruct (deref st item) as [c| |]; cbn [mbind result_bind]; try done.
    destruct (ScrollView fuel item topline _ _) as [[[st2 t2] v]| |] eqn:Hs;
      cbn [mbind result_bind]; try done.
    apply ScrollView_counter_bounds in Hs. intros Hrest.
    apply IH in Hrest as [Ht Hl]. cbn [length]. split; [lia|].
    destruct (decide (v = "")); [lia|]. rewrite length_app in Hl. cbn in Hl. lia.
Qed.

(** [Tree.View] has no early exit: every top-level item is visited and moves
    the counter on, whatever the height; and each item contributes at most
    one block to the output. *)
Theorem View_visits_every_item (fuel : nat) (st st' : State) (t' : Z)
    (views : list string) :
  View_rows fuel st = Ok (st', t', views) →
  (TopLine st + Z.of_nat (length (Items st)) ≤ t')%Z ∧
  (length views ≤ length (Items st))%nat.
Proof. unfold View_rows. intros Hv. by apply View_loop_counter in Hv. Qed.

(** Rendering writes [indent] fields and nothing else: the tree fields and
    every other field of every item are as before. *)
Theorem View_only_writes_indent (fuel : nat) (st st' : State) (s : string) :
  Tree_View fuel st = Ok (st', s) → same_but_indent st st'.
Proof. apply Tree_View_same_but_indent. Qed.

Lemma view_kids_cons view ti item rest kids st :
  view_kids view ti (item :: rest) kids st =
    (c ← deref st item;
     me ← deref st ti;
     '(st2, inners) ← view item (store item (with_indent (indent me + 1) c) st);
     view_kids view ti rest (kids ++ [inners]) st2).
Proof. reflexivity. Qed.

Lemma kids_loop_unclipped scroll view ti bottomline :
  (∀ item t st st' t' s, (0 ≤ t)%Z → scroll item t st = Ok (st', t', s) →
     (t' < bottomline)%Z → view item st = Ok (st', s)) →
  (∀ item t st st' t' s, scroll item t st = Ok (st', t', s) → (t + 1 ≤ t')%Z) →
  ∀ items t kids st st' t' kids',
    (0 ≤ t)%Z →
    kids_loop scroll ti bottomline items t kids st = Ok (st', t', kids') →
    (t' < bottomline)%Z →
    view_kids view ti items kids st = Ok (st', kids').
Proof.
  intros Hview Hmono. induction items as [|item rest IH];
    intros t kids st st' t' kids' Ht.
  - by intros [= <- _ <-] _.
  - rewrite kids_loop_cons, view_kids_cons.
    destruct (deref st item) as [c| |]; cbn [mbind result_bind]; try done.
    destruct (deref st ti) as [me| |]; cbn [mbind result_bind]; try done.
    destruct (scroll item t _) as [[[st2 t2] tmps]| |] eqn:Hs; cbn [mbind result_bind];
      try done.
    pose proof (Hmono _ _ _ _ _ _ Hs) as Hge.
    destruct (Z.leb_spec bottomline t2).
    + intros [= _ <- _] Hlt. lia.
    + intros Hrest Hlt.
      rewrite (Hview _ _ _ _ _ _ Ht Hs) by lia. cbn [mbind result_bind].
      eapply IH; [|exact Hrest|exact Hlt]. lia.
Qed.

(** Where [ScrollView] starts at a counter that is not negative and ends
    strictly before the bottom line, nothing was clipped: it returns the
    text and the store of the unclipped [View]. *)
Theorem ScrollView_unclipped_is_View (fuel : nat) (ti : ptr) (topline bottomline : Z)
    (st st' : State) (t' : Z) (s : string) :
  (0 ≤ topline)%Z →
  ScrollView fuel ti topline bottomline st = Ok (st', t', s) →
  (t' < bottomline)%Z →
  TreeItem_View fuel ti st = Ok (st', s).
Proof.
  revert ti topline st st' t' s.
  induction fuel as [|fuel IH]; intros ti topline st st' t' s Ht; [done|].
  rewrite ScrollView_unfold.
  change (TreeItem_View (S fuel) ti st) with
    (it ← deref st ti;
     match ParentTree it with
     | NilTree => Panicked NilDereference
     | TheTree =>
         let s :=
           if decide (ActiveItem st = Some ti) then focusedStyle (label it)
           else unfocusedStyle (label it) in
         if (0 <? length (Children it))%nat && Open it then
           '(st', kids) ←
             view_kids (fun item st => TreeItem_View fuel item st) ti (Children it) [] st;
           Ok (st', JoinVertical (s :: kids))
         else Ok (st, s)
     end).
  destruct (deref st ti) as [it| |]; cbn [mbind result_bind]; try done.
  destruct (ParentTree it); [done|]. cbv zeta.
  destruct (Z.ltb_spec topline 0); [lia|]. cbn [negb].
  destruct (Z.ltb_spec bottomline (topline + 1)); [intros [= _ <- _]; lia|].
  destruct ((0 <? length (Children it))%nat && Open it); [|by intros [= <- _ <-]].
  destruct (kids_loop _ ti bottomline (Children it) (topline + 1)%Z [] st)
    as [[[st2 t2] kids]| |] eqn:Hk; cbn [mbind result_bind]; try done.
  intros [= <- <- <-] Hlt.
  erewrite (kids_loop_unclipped _ (fun item st => TreeItem_View fuel item st));
    [done| | |  |exact Hk|exact Hlt].
  - intros item t st0 st0' t0' s0. apply IH.
  - intros item t st0 st0' t0' s0 Hs. apply ScrollView_counter_bounds in Hs. lia.
  - lia.
Qed.

End RenderingBounds.

Lemma ScrollView_counter_bounds_witness :
  (0 + 1 ≤ 3 ≤ Z.max (0 + 1) (2 + 1))%Z.
Proof.
  pose (r := result_value (New, 0%Z, "")
               (ScrollView (H := plain) 3 0%nat 0 2 nested_at_item1)).
  apply (ScrollView_counter_bounds (H := plain) 3 0%nat 0 2 nested_at_item1
           r.1.1 3 r.2).
  vm_compute. reflexivity.
Defined.

Lemma View_visits_every_item_witness :
  (TopLine flat10_height3 + Z.of_nat (length (Items flat10_height3)) ≤ 10)%Z ∧
  (3 ≤ length (Items flat10_height3))%nat.
Proof.
  pose (r := result_value (New, 0%Z, []) (View_rows (H := plain) 1 flat10_height3)).
  apply (View_visits_every_item (H := plain) 1 flat10_height3 r.1.1 10
           ["| - N0|"; "  - N1 "; "  - N2 "]).
  vm_compute. reflexivity.
Defined.

Lemma View_only_writes_indent_witness :
  same_but_indent nested_sized
    (result_value (New, "") (Tree_View (H := plain) 3 nested_sized)).1.
Proof.
  apply (View_only_writes_indent (H := plain) 3 nested_sized _
           (result_value (New, "") (Tree_View (H := plain) 3 nested_sized)).2).
  vm_compute. reflexivity.
Defined.

Lemma ScrollView_unclipped_is_View_witness :
  TreeItem_View (H := plain) 3 0%nat nested_sized
  = Ok ((result_value (New, 0%Z, "")
           (ScrollView (H := plain) 3 0%nat 0 10 nested_sized)).1.1,
        (result_value (New, 0%Z, "")
           (ScrollView (H := plain) 3 0%nat 0 10 nested_sized)).2).
Proof.
  apply (ScrollView_unclipped_is_View (H := plain) 3 0%nat 0 10 nested_sized _ 3 _).
  - lia.
  - vm_compute. reflexivity.
  - lia.
Defined.

(** [Tree.View] over top-level items without children, for any scroll
    offset and height: the counter ends at [TopLine] plus the number of
    items; an item counted at [t] yields its styled row when [0 ≤ t <
    Height], its bare marker when [t < 0] and [t < Height], and nothing
    when [Height ≤ t]. *)
Theorem View_of_flat_items `{Presentation} (fuel : nat) (st : State) :
  Forall (flat_item st) (Items st) →
  ∃ st', View_rows (S fuel) st
           = Ok (st', (TopLine st + Z.of_nat (length (Items st)))%Z,
                 flat_rows st (Items st) (TopLine st))
         ∧ same_but_indent st st'.
Proof.
  intros Hall. destruct (View_loop_flat fuel _ st (TopLine st) [] Hall) as (st' & Hv & Hs).
  by exists st'.
Qed.

Lemma View_of_flat_items_witness :
  ∃ st', View_rows (H := plain) 1 folders10_scrolled
           = Ok (st', (TopLine folders10_scrolled
                       + Z.of_nat (length (Items folders10_scrolled)))%Z,
                 flat_rows (H := plain) folders10_scrolled (Items folders10_scrolled)
                   (TopLine folders10_scrolled))
         ∧ same_but_indent folders10_scrolled st'.
Proof.
  apply (View_of_flat_items (H := plain) 0 folders10_scrolled).
  repeat (apply Forall_cons; split;
          [eexists; split; [vm_compute; reflexivity | split; reflexivity] |]).
  apply Forall_nil_2.
Defined.

(** ** GetPath *)

Lemma GetPath_ancestry st p chain :
  ancestry st p chain →
  ∃ fuel0, ∀ fuel, (fuel0 ≤ fuel)%nat →
    TreeItem_GetPath fuel p st = Ok (name_of st <$> chain).
Proof.
  induction 1 as [p it Hp HP|p it a chain Hp HP _ (fuel0 & IH)].
  - exists 1%nat. intros [|fuel] Hf; [lia|].
    cbn. rewrite (deref_Some _ _ _ Hp). cbn. rewrite HP. cbn.
    unfold name_of. by rewrite Hp.
  - exists (S fuel0). intros [|fuel] Hf; [lia|].
    cbn [TreeItem_GetPath]. rewrite (deref_Some _ _ _ Hp). cbn [mbind result_bind].
    rewrite HP, IH by lia. cbn [mbind result_bind].
    rewrite fmap_app. f_equal. f_equal. cbn. unfold name_of. by rewrite Hp.
Qed.

Lemma attached_ancestry st p :
  attached st p →
  ∃ chain, ancestry st p chain ∧ last chain = Some p ∧
           ∃ top, head chain = Some top ∧ top ∈ Items st.
Proof.
  induction 1 as [p it Hp HP HT Hin|p it a ita Hp HP HT Ha Hin _ IH].
  - exists [p]. split; [by eapply ancestry_top|]. split; [done|]. by exists p.
  - destruct IH as (chain & Hchain & Hlast & top & Hhead & Htop).
    exists (chain ++ [p]). split; [by eapply ancestry_child|].
    split; [by rewrite last_snoc|].
    exists top. split; [|done]. destruct chain; [done|]. by cbn in *.
Qed.

(** [GetPath] of a node whose parent chain ends in the tree returns, with
    enough fuel, the names along that chain: the top-level ancestor first,
    the node itself last. *)
Theorem GetPath_names_the_ancestors (st : State) (p : ptr) :
  attached st p →
  ∃ chain, ancestry st p chain ∧ last chain = Some p ∧
           (∃ top, head chain = Some top ∧ top ∈ Items st) ∧
           ∃ fuel0, ∀ fuel, (fuel0 ≤ fuel)%nat →
             TreeItem_GetPath fuel p st = Ok (name_of st <$> chain).
Proof.
  intros Hatt. destruct (attached_ancestry _ _ Hatt) as (chain & Hchain & Hlast & Htop).
  exists chain. repeat (split; [done|]). by apply GetPath_ancestry.
Qed.

Lemma GetPath_names_the_ancestors_witness :
  ∃ chain, ancestry nested_at_item1 2%nat chain ∧ last chain = Some 2%nat ∧
           (∃ top, head chain = Some top ∧ top ∈ Items nested_at_item1) ∧
           ∃ fuel0, ∀ fuel, (fuel0 ≤ fuel)%nat →
             TreeItem_GetPath fuel 2%nat nested_at_item1
             = Ok (name_of nested_at_item1 <$> chain).
Proof.
  apply (GetPath_names_the_ancestors nested_at_item1 2%nat). solve_attached.
Defined.

(** ** Further properties of construction, refresh and toggling *)

(** [Tree.AddChildren] never replaces an active item that is set.  So after
    [Tree.Refresh] the tree can be filled again, but the active item is
    still the one from before the refresh. *)
Theorem AddChildren_after_Refresh_keeps_active (st st' : State) (i : list ptr) (a : ptr) :
  ActiveItem st = Some a → Tree_AddChildren i (Tree_Refresh st) = Ok st' →
  ActiveItem st' = Some a ∧ Items st' = i.
Proof.
  intros Hact Hadd. apply Tree_AddChildren_fields in Hadd as (HI & HA0 & HA).
  cbn in HI, HA0, HA. rewrite Hact in HA0, HA. split; [|done].
  destruct i as [|x i']; [by apply HA0|by apply HA].
Qed.

Lemma AddChildren_after_Refresh_keeps_active_witness :
  ActiveItem (result_value New (Tree_AddChildren [1%nat] (Tree_Refresh empty_folder_at_a)))
  = Some 0%nat ∧
  Items (result_value New (Tree_AddChildren [1%nat] (Tree_Refresh empty_folder_at_a)))
  = [1%nat].
Proof.
  apply (AddChildren_after_Refresh_keeps_active empty_folder_at_a).
  - reflexivity.
  - vm_compute. reflexivity.
Defined.

(** After [TreeItem.Refresh] on a folder, whatever its flag was, the next
    toggle is an opening: the folder is open with an empty child list and
    its [OpenFunc], when set, is called. *)
Theorem Refresh_then_toggle_opens (st : State) (p : ptr) (it : TreeItem) :
  heap st !! p = Some it → CanHaveChildren it = true →
  ∃ st1 st2,
    TreeItem_Refresh p st = Ok st1 ∧
    ToggleChildren p st1 = Ok (st2, hook_calls (OpenFunc it) OpenCall p) ∧
    heap st2 !! p = Some (with_Open true (with_Children [] it)) ∧
    ∀ q, q ≠ p → heap st2 !! q = heap st !! q.
Proof.
  intros Hp Hcan.
  set (it1 := with_Open false (with_Children [] it)).
  exists (store p it1 st), (store p (with_Open true it1) (store p it1 st)).
  assert (heap (store p it1 st) !! p = Some it1) as Hp1 by (cbn; apply lookup_insert_eq).
  split; [|split; [|split]].
  - unfold TreeItem_Refresh. by rewrite (deref_Some _ _ _ Hp).
  - unfold ToggleChildren. rewrite (deref_Some _ _ _ Hp1). cbn [mbind result_bind].
    change (CanHaveChildren it1) with (CanHaveChildren it). rewrite Hcan.
    cbn. by destruct (OpenFunc it).
  - cbn. by rewrite lookup_insert_eq.
  - intros q Hq. cbn. by rewrite !lookup_insert_ne.
Qed.

Lemma Refresh_then_toggle_opens_witness :
  ∃ st1 st2,
    TreeItem_Refresh 0%nat open_grandchildren_state = Ok st1 ∧
    ToggleChildren 0%nat st1 = Ok (st2, [OpenCall 7%nat 0%nat]) ∧
    heap st2 !! 0%nat
      = Some (mkTreeItem TheTree HTree "d" "P" [] true true (Some 7%nat) None 0) ∧
    ∀ q, q ≠ 0%nat → heap st2 !! q = heap open_grandchildren_state !! q.
Proof.
  apply (Refresh_then_toggle_opens open_grandchildren_state 0%nat
           (mkTreeItem TheTree HTree "d" "P" [1%nat] true true (Some 7%nat) None 0)).
  - vm_compute. reflexivity.
  - reflexivity.
Defined.

(** Two toggles of an item give back the state: a leaf is not touched at
    all, and a folder, open or closed, is flipped and flipped back, each
    flip calling the hook of its direction when one is set. *)
Theorem ToggleChildren_twice (st : State) (p : ptr) (it : TreeItem) :
  heap st !! p = Some it →
  ∃ st1 calls1 calls2,
    ToggleChildren p st = Ok (st1, calls1) ∧
    ToggleChildren p st1 = Ok (st, calls2) ∧
    calls1 ++ calls2 =
      if CanHaveChildren it then
        if Open it then
          hook_calls (CloseFunc it) CloseCall p ++ hook_calls (OpenFunc it) OpenCall p
        else
          hook_calls (OpenFunc it) OpenCall p ++ hook_calls (CloseFunc it) CloseCall p
      else [].
Proof.
  intros Hp. destruct (CanHaveChildren it) eqn:Hcan.
  - set (it1 := with_Open (negb (Open it)) it).
    assert (heap (store p it1 st) !! p = Some it1) as Hp1 by (cbn; apply lookup_insert_eq).
    assert (with_Open (negb (Open it1)) it1 = it) as Hback.
    { unfold it1. destruct it as [? ? ? ? ? ? o ? ? ?]. cbn. by destruct o. }
    exists (store p it1 st),
      (if Open it then hook_calls (CloseFunc it) CloseCall p
       else hook_calls (OpenFunc it) OpenCall p),
      (if Open it then hook_calls (OpenFunc it) OpenCall p
       else hook_calls (CloseFunc it) CloseCall p).
    split; [|split].
    + unfold ToggleChildren. rewrite (deref_Some _ _ _ Hp). cbn [mbind result_bind].
      rewrite Hcan. fold it1. unfold it1 at 1. cbn [Open with_Open].
      destruct (Open it); cbn; [by destruct (CloseFunc it)|by destruct (OpenFunc it)].
    + unfold ToggleChildren. rewrite (deref_Some _ _ _ Hp1). cbn [mbind result_bind].
      change (CanHaveChildren it1) with (CanHaveChildren it). rewrite Hcan.
      rewrite Hback, store_store, (store_same _ _ _ Hp).
      change (OpenFunc it) with (OpenFunc it). 
      destruct (Open it) eqn:Ho; cbn; [by destruct (OpenFunc it)|by destruct (CloseFunc it)].
    + by destruct (Open it).
  - exists st, [], []. unfold ToggleChildren. rewrite (deref_Some _ _ _ Hp).
    cbn [mbind result_bind]. by rewrite Hcan.
Qed.

Lemma ToggleChildren_twice_witness :
  ∃ st1 calls1 calls2,
    ToggleChildren 0%nat two_new_items = Ok (st1, calls1) ∧
    ToggleChildren 0%nat st1 = Ok (two_new_items, calls2) ∧
    calls1 ++ calls2 = [].
Proof.
  apply (ToggleChildren_twice two_new_items 0%nat
           (mkTreeItem NilTree HNil "d" "A" [] true false None None 0)).
  vm_compute. reflexivity.
Defined.

(** ** Building a tree top-down keeps it valid *)

Lemma reachable_allocated st p : valid st → reachable st p → allocated st p.
Proof.
  intros Hvalid Hr. destruct (node_context _ _ Hvalid Hr) as (it & l & Hp & _).
  by exists it.
Qed.

Lemma grafted_reachable st st' h news x :
  valid st → grafted st st' h news →
  reachable st' x → reachable st x ∨ x ∈ news.
Proof.
  intros Hvalid (Hnd & Hh & HI & Hnew & Hold).
  induction 1 as [p Hp|a ita' p _ IH Ha Hp].
  - rewrite HI in Hp. apply elem_of_app in Hp as [Hp|Hp]; [left; by apply reachable_top|].
    right. by destruct (decide (h = HTree)); [|apply elem_of_nil in Hp].
  - destruct IH as [Hra|Hnewa].
    + destruct (reachable_allocated _ _ Hvalid Hra) as [ita Hita].
      destruct (decide (a ∈ news)) as [Hin|Hnin]; [by destruct (Hnew a Hin)|].
      destruct (Hold a ita Hnin Hita) as (ita2 & Ha2 & _ & _ & Hc & _).
      assert (ita2 = ita') as -> by congruence.
      rewrite Hc in Hp. apply elem_of_app in Hp as [Hp|Hp].
      * left. by eapply reachable_child.
      * right. by destruct (decide (h = HItem a)); [|apply elem_of_nil in Hp].
    + destruct (Hnew a Hnewa) as (_ & itc & Hc & Hnil & _).
      assert (itc = ita') as -> by congruence.
      rewrite Hnil in Hp. by apply elem_of_nil in Hp.
Qed.

Lemma grafted_listed st st' h news g l :
  valid st → grafted st st' h news →
  listed_under st g l → (∀ x, x ∈ l → reachable st x) →
  listed_under st' g (l ++ (if decide (h = g) then news else [])).
Proof.
  intros Hvalid (Hnd & Hh & HI & Hnew & Hold) [Hndl Hl] Hreach.
  assert (∀ x, x ∈ l → x ∉ news) as Hdisj.
  { intros x Hx Hin. destruct (Hnew x Hin) as [Hnr _]. by apply Hnr, Hreach. }
  split.
  - apply NoDup_app. split; [done|]. split; [|by destruct (decide (h = g)); [|constructor]].
    intros x Hx Hin. destruct (decide (h = g)); [by eapply Hdisj|by apply elem_of_nil in Hin].
  - intros p Hp. apply elem_of_app in Hp as [Hp|Hp].
    + destruct (Hl p Hp) as (it & Hit & HP & HT).
      destruct (Hold p it (Hdisj p Hp) Hit) as (it' & Hit' & HP' & HT' & _).
      exists it'. split; [done|]. split; congruence.
    + destruct (decide (h = g)) as [<-|]; [|by apply elem_of_nil in Hp].
      destruct (Hnew p Hp) as (_ & itc & Hc & _ & HP & HT). by exists itc.
Qed.

(** Hanging fresh leaves under the tree or under a node of a valid tree
    gives a valid tree. *)
Lemma grafted_valid st st' h news :
  valid st → grafted st st' h news → valid st'.
Proof.
  intros Hvalid Hg. pose proof Hg as (Hnd & Hh & HI & Hnew & Hold). split.
  - rewrite HI.
    eapply grafted_listed; [done..|apply Hvalid|].
    intros x Hx. by apply reachable_top.
  - intros a ita' Hra Hita'.
    destruct (grafted_reachable _ _ _ _ _ Hvalid Hg Hra) as [Hr|Hin].
    + destruct (reachable_allocated _ _ Hvalid Hr) as [ita Hita].
      assert (a ∉ news) as Hnin by (intros Hin; by destruct (Hnew a Hin)).
      destruct (Hold a ita Hnin Hita) as (ita2 & Ha2 & _ & _ & Hc & Hcan).
      assert (ita2 = ita') as -> by congruence.
      destruct (proj2 Hvalid a ita Hr Hita) as [Hlisted Hcan0].
      rewrite Hc. split.
      * eapply grafted_listed; [done..|].
        intros x Hx. by eapply reachable_child.
      * intros Hne. apply Hcan.
        destruct (Children ita) as [|c cs] eqn:Hcs; [|left; by apply Hcan0].
        right. destruct (decide (h = HItem a)); [done|]. by rewrite app_nil_r in Hne.
    + destruct (Hnew a Hin) as (_ & itc & Hc & Hnil & _).
      assert (itc = ita') as -> by congruence.
      rewrite Hnil. split; [|done]. split; [constructor|].
      intros p Hp. by apply elem_of_nil in Hp.
Qed.

Lemma with_Parent_twice h t it : with_Parent h t (with_Parent h t it) = with_Parent h t it.
Proof. done. Qed.

(** The store after the loop of [Tree.AddChildren]. *)
Lemma adopt_into_tree_heap i : ∀ st st',
  adopt_into_tree i st = Ok st' →
  ∀ q, heap st' !! q =
       if decide (q ∈ i) then with_Parent HTree TheTree <$> heap st !! q
       else heap st !! q.
Proof.
  induction i as [|item rest IH]; intros st st'.
  - intros [= <-] q. by rewrite decide_False by apply not_elem_of_nil.
  - cbn [adopt_into_tree].
    destruct (deref st item) as [c| |] eqn:Hc; cbn [mbind result_bind]; try done.
    apply deref_Ok in Hc. intros Hrest q. rewrite (IH _ _ Hrest q). cbn [heap store set_heap].
    destruct (decide (q = item)) as [->|Hne].
    + rewrite lookup_insert_eq, Hc, (decide_True _ _ (list_elem_of_here _ _)).
      by destruct (decide (item ∈ rest)).
    + rewrite lookup_insert_ne by done.
      destruct (decide (q ∈ rest)) as [Hin|Hnin].
      * by rewrite decide_True by (apply elem_of_cons; by right).
      * rewrite decide_False; [done|]. intros [?|?]%elem_of_cons; done.
Qed.

(** The store after the loop of [TreeItem.AddChildren]. *)
Lemma adopt_into_item_heap ti t0 children : ∀ st st',
  adopt_into_item ti children st = Ok st' →
  ParentTree <$> heap st !! ti = Some t0 →
  ∀ q, heap st' !! q =
       if decide (q ∈ children) then with_Parent (HItem ti) t0 <$> heap st !! q
       else heap st !! q.
Proof.
  induction children as [|child rest IH]; intros st st'.
  - intros [= <-] _ q. by rewrite decide_False by apply not_elem_of_nil.
  - cbn [adopt_into_item].
    destruct (deref st child) as [c| |] eqn:Hc; cbn [mbind result_bind]; try done.
    apply deref_Ok in Hc.
    set (st1 := store child (with_Parent (HItem ti) (ParentTree c) c) st).
    destruct (deref st1 ti) as [it| |] eqn:Hit; cbn [mbind result_bind]; try done.
    apply deref_Ok in Hit.
    assert (heap st1 !! child = Some (with_Parent (HItem ti) (ParentTree c) c)) as Hc1
      by (cbn; apply lookup_insert_eq).
    rewrite (deref_Some _ _ _ Hc1). cbn [mbind result_bind].
    intros Hrest Ht0.
    assert (ParentTree it = t0) as Hpt.
    { cbn in Hit. destruct (decide (child = ti)) as [->|Hne].
      - rewrite lookup_insert_eq in Hit. rewrite Hc in Ht0. cbn in Ht0. by simplify_eq.
      - rewrite lookup_insert_ne in Hit by done. rewrite Hit in Ht0. cbn in Ht0. by simplify_eq. }
    rewrite Hpt in Hrest. unfold st1 in Hrest. rewrite store_store in Hrest.
    cbn [Parent with_Parent] in Hrest.
    intros q. rewrite (IH _ _ Hrest).
    2:{ cbn. destruct (decide (child = ti)) as [->|Hne].
        - by rewrite lookup_insert_eq.
        - by rewrite lookup_insert_ne. }
    cbn [heap store set_heap].
    destruct (decide (q = child)) as [->|Hne].
    + rewrite lookup_insert_eq, Hc, (decide_True _ _ (list_elem_of_here _ _)).
      by destruct (decide (child ∈ rest)).
    + rewrite lookup_insert_ne by done.
      destruct (decide (q ∈ rest)) as [Hin|Hnin].
      * by rewrite decide_True by (apply elem_of_cons; by right).
      * rewrite decide_False; [done|]. intros [?|?]%elem_of_cons; done.
Qed.

Lemma allocated_store st p x q : allocated st q → allocated (store p x st) q.
Proof.
  intros [y Hq]. unfold allocated. cbn.
  destruct (decide (p = q)) as [<-|Hne].
  - rewrite lookup_insert_eq. by eexists.
  - rewrite lookup_insert_ne by done. by eexists.
Qed.

Lemma adopt_into_item_total ti children : ∀ st,
  allocated st ti → Forall (allocated st) children →
  ∃ st', adopt_into_item ti children st = Ok st'.
Proof.
  induction children as [|child rest IH]; intros st Hti Hall; [by eexists|].
  apply Forall_cons in Hall as [[c Hc] Hall].
  cbn [adopt_into_item]. rewrite (deref_Some _ _ _ Hc). cbn [mbind result_bind].
  set (st1 := store child (with_Parent (HItem ti) (ParentTree c) c) st).
  destruct (allocated_store st child (with_Parent (HItem ti) (ParentTree c) c) ti Hti)
    as [it Hit].
  fold st1 in Hit. rewrite (deref_Some _ _ _ Hit). cbn [mbind result_bind].
  assert (heap st1 !! child = Some (with_Parent (HItem ti) (ParentTree c) c)) as Hc1
    by (cbn; apply lookup_insert_eq).
  rewrite (deref_Some _ _ _ Hc1). cbn [mbind result_bind].
  apply IH.
  - by do 2 apply allocated_store.
  - eapply Forall_impl; [exact Hall|]. intros q Hq. by do 2 apply allocated_store.
Qed.

(** [Tree.AddChildren] with fresh leaves keeps a valid tree valid. *)
Theorem Tree_AddChildren_keeps_valid (st : State) (i : list ptr) :
  valid st → fresh_leaves st i →
  ∃ st', Tree_AddChildren i st = Ok st' ∧ valid st'.
Proof.
  intros Hvalid [Hnd Hfresh].
  destruct i as [|x i']; [by exists st|]. set (i := x :: i') in *.
  assert (∃ st', Tree_AddChildren i st = Ok st') as [st' Hadd].
  { unfold Tree_AddChildren, i. apply adopt_into_tree_total.
    apply Forall_forall. intros c Hc. destruct (Hfresh c Hc) as (_ & itc & Hitc & _).
    exists itc. by destruct (ActiveItem (set_Items (Items st ++ x :: i') st)). }
  exists st'. split; [done|].
  apply (grafted_valid st st' HTree i); [done|].
  pose proof (Tree_AddChildren_fields _ _ _ Hadd) as (HI & _ & _).
  assert (∀ q, heap st' !! q =
               if decide (q ∈ i) then with_Parent HTree TheTree <$> heap st !! q
               else heap st !! q) as Hheap.
  { intros q. unfold Tree_AddChildren, i in Hadd.
    rewrite (adopt_into_tree_heap _ _ _ Hadd q).
    by destruct (ActiveItem (set_Items (Items st ++ x :: i') st)). }
  split; [done|]. split; [done|]. split; [by rewrite decide_True|]. split.
  - intros c Hc. destruct (Hfresh c Hc) as (Hnr & itc & Hitc & Hnil).
    split; [done|]. exists (with_Parent HTree TheTree itc).
    rewrite Hheap, decide_True, Hitc by done. done.
  - intros q itq Hq Hitq. exists itq.
    rewrite Hheap, decide_False by done.
    rewrite decide_False by done. rewrite app_nil_r.
    repeat (split; [done|]). by intros [?|?].
Qed.

(** [TreeItem.AddChildren] of fresh leaves to a node of a valid tree keeps
    the tree valid. *)
Theorem TreeItem_AddChildren_keeps_valid (st : State) (ti : ptr) (children : list ptr) :
  valid st → reachable st ti → fresh_leaves st children →
  ∃ st', TreeItem_AddChildren ti children st = Ok st' ∧ valid st'.
Proof.
  intros Hvalid Hr [Hnd Hfresh].
  destruct (node_context _ _ Hvalid Hr) as (it & l & Hit & HT & _).
  assert (ti ∉ children) as Hti by (intros Hin; by destruct (Hfresh ti Hin)).
  set (it2 := with_CanHaveChildren true (with_Children (Children it ++ children) it)).
  set (st2 := store ti it2 st).
  assert (heap st2 !! ti = Some it2) as Hit2 by (cbn; apply lookup_insert_eq).
  assert (TreeItem_AddChildren ti children st = adopt_into_item ti children st2) as Heq.
  { unfold TreeItem_AddChildren. rewrite (deref_Some _ _ _ Hit). cbn [mbind result_bind].
    set (st1 := store ti (with_Children (Children it ++ children) it) st).
    assert (heap st1 !! ti = Some (with_Children (Children it ++ children) it)) as Hit1
      by (cbn; apply lookup_insert_eq).
    rewrite (deref_Some _ _ _ Hit1). cbn [mbind result_bind].
    unfold st1. by rewrite store_store. }
  destruct (adopt_into_item_total ti children st2) as [st' Hadopt].
  { by eexists. }
  { apply Forall_forall. intros c Hc. destruct (Hfresh c Hc) as (_ & itc & Hitc & _).
    apply allocated_store. by exists itc. }
  exists st'. split; [by rewrite Heq|].
  apply (grafted_valid st st' (HItem ti) children); [done|].
  pose proof (adopt_into_item_heap ti TheTree children st2 st' Hadopt) as Hheap.
  rewrite Hit2 in Hheap. specialize (Hheap (f_equal Some HT)).
  destruct (adopt_into_item_frame ti TheTree children st2 st' Hadopt) as (_ & HI & _).
  { rewrite Hit2. cbn. by rewrite HT. }
  split; [done|]. split; [done|].
  split; [by rewrite decide_False, app_nil_r|]. split.
  - intros c Hc. destruct (Hfresh c Hc) as (Hnr & itc & Hitc & Hnil).
    split; [done|]. exists (with_Parent (HItem ti) TheTree itc).
    rewrite Hheap, decide_True by done. cbn [heap st2 store set_heap].
    rewrite lookup_insert_ne by (intros ->; done). by rewrite Hitc.
  - intros q itq Hq Hitq. rewrite Hheap, decide_False by done.
    destruct (decide (ti = q)) as [<-|Hne].
    + exists it2. assert (itq = it) as -> by congruence.
      rewrite decide_True by done. by repeat split.
    + exists itq. cbn [heap st2 store set_heap]. rewrite lookup_insert_ne by done.
      rewrite decide_False by congruence. rewrite app_nil_r.
      repeat (split; [done|]). intros [?|?]; [done|congruence].
Qed.

Lemma NoDup_two (a b : ptr) : a ≠ b → NoDup [a; b].
Proof.
  intros Hne. apply NoDup_cons. split.
  - intros Hin. apply list_elem_of_singleton in Hin. done.
  - apply NoDup_singleton.
Qed.

Lemma Tree_AddChildren_keeps_valid_witness :
  ∃ st', Tree_AddChildren [0; 1]%nat two_new_items = Ok st' ∧ valid st'.
Proof.
  apply (Tree_AddChildren_keeps_valid two_new_items [0; 1]%nat).
  - apply validb_sound. vm_compute. reflexivity.
  - split; [by apply NoDup_two|].
    intros c Hc. split; [by apply reachable_empty|].
    apply elem_of_cons in Hc as [->|Hc]; [eexists; split; [vm_compute; reflexivity|done]|].
    apply list_elem_of_singleton in Hc as ->.
    eexists; split; [vm_compute; reflexivity|done].
Defined.

Lemma folder_and_loose_leaf_reachable p :
  reachable folder_and_loose_leaf p → p = 0%nat.
Proof.
  induction 1 as [p Hp|a ita p Hra IH Ha Hp].
  - change (Items folder_and_loose_leaf) with [0%nat] in Hp.
    by apply list_elem_of_singleton in Hp.
  - subst a. assert (Children ita = []) as Hc.
    { revert Ha. vm_compute. by intros [= <-]. }
    rewrite Hc in Hp. by apply elem_of_nil in Hp.
Qed.

Lemma TreeItem_AddChildren_keeps_valid_witness :
  ∃ st', TreeItem_AddChildren 0%nat [1%nat] folder_and_loose_leaf = Ok st' ∧ valid st'.
Proof.
  apply (TreeItem_AddChildren_keeps_valid folder_and_loose_leaf 0%nat [1%nat]).
  - apply validb_sound. vm_compute. reflexivity.
  - apply reachable_top. solve_elem.
  - split; [apply NoDup_singleton|].
    intros c Hc. apply list_elem_of_singleton in Hc as ->. split.
    + intros Hr. by apply folder_and_loose_leaf_reachable in Hr.
    + eexists. split; [vm_compute; reflexivity|done].
Defined.

Section MoreInvariants.
Context `{Presentation}.

(** In every state reached from [New()] without [Refresh], every item
    whose [ParentTree] is the tree is reached from the top-level list, and
    its [Parent] is the tree or an item reached from the top-level list. *)
Theorem pointers_sound_without_refresh (fuel : nat) (ops : list Op)
    (st : State) (calls : list HookCall) :
  refresh_free ops → run fuel ops New = Ok (st, calls) → pointers_sound st.
Proof.
  intros Hfree Hrun.
  by destruct (run_tree_inv fuel ops New st calls Hfree Hrun tree_inv_New).
Qed.

End MoreInvariants.

Lemma pointers_sound_without_refresh_witness : pointers_sound nested_at_subsub1.
Proof.
  apply (pointers_sound_without_refresh (H := plain) 3
           (nested ++ [OpTreeSelectNext; OpTreeSelectNext]) nested_at_subsub1 []).
  - reflexivity.
  - vm_compute. reflexivity.
Defined.

(** ** Scripts whose calls are given existing items keep the store closed *)










Section ClosedScripts.
Context `{Presentation}.



End ClosedScripts.

(** ** The active item along well-called scripts *)

Section ActiveItem.
Context `{Presentation}.






End ActiveItem.


